(** * Metrix: the DOCX -> Markdown batch converter (convert.py)

    A shallow embedding of the two pieces of [convert.py] that take
    decisions: the text normaliser [clean_markdown] with its four regular
    expressions, and the fallback driver [convert_with_fallback]; plus the
    path filter [is_in_skipped_dir].

    Python strings are sequences of Unicode code points; a code point is a
    number of type [N], a text is a list of them. *)

From Stdlib Require Import String Ascii List NArith ZArith Bool Arith Lia.
Import ListNotations.

(** ** Characters and texts *)

Abbreviation char := N (only parsing).
Abbreviation text := (list N) (only parsing).

(** A Rocq string literal read as a Python [str] (one code point per
    character of the literal). *)
Definition lit (s : string) : text :=
  List.map N_of_ascii (list_ascii_of_string s).

Definition NL : char := 10%N.
Definition CR : char := 13%N.

Definition is_chr (a c : char) : bool := N.eqb c a.
Definition not_chr (a c : char) : bool := negb (N.eqb c a).

Definition COLON : char := 58%N.
Definition LBRACE : char := 123%N.
Definition RBRACE : char := 125%N.
Definition LT : char := 60%N.
Definition GT : char := 62%N.
Definition SLASH : char := 47%N.
Definition UNDERSCORE : char := 95%N.

Definition in_range (lo hi c : char) : bool := (N.leb lo c && N.leb c hi)%bool.
Arguments in_range (lo hi c)%_N_scope.

(** [Py_UNICODE_ISSPACE]: the code points that [str.strip], [str.rstrip]
    and the pattern class [\s] treat as whitespace. *)
Definition is_space (c : char) : bool :=
  (in_range 9 13 c || in_range 28 31 c || N.eqb c 32 || N.eqb c 133
   || N.eqb c 160 || N.eqb c 5760 || in_range 8192 8202 c
   || in_range 8232 8233 c || N.eqb c 8239 || N.eqb c 8287
   || N.eqb c 12288)%bool.

(** The line boundaries of [str.splitlines]. *)
Definition is_linebreak (c : char) : bool :=
  (in_range 10 13 c || in_range 28 30 c || N.eqb c 133
   || in_range 8232 8233 c)%bool.

(** [[A-Za-z]] and [[A-Za-z0-9]] of [RE_HTML_TAG]. *)
Definition is_ascii_alpha (c : char) : bool :=
  (in_range 65 90 c || in_range 97 122 c)%bool.
Definition is_ascii_alnum (c : char) : bool :=
  (is_ascii_alpha c || in_range 48 57 c)%bool.

(** [.] without DOTALL: anything but a newline. *)
Definition is_dot (c : char) : bool := not_chr NL c.

(** ** String methods *)

(** [sep.join(parts)] *)
Fixpoint join (sep : text) (parts : list text) : text :=
  match parts with
  | [] => []
  | p :: rest =>
      match rest with
      | [] => p
      | _ :: _ => p ++ sep ++ join sep rest
      end
  end.

(** [s.splitlines()]: the text is cut at every line boundary, a carriage
    return followed by a line feed counting as one; the boundaries are not kept; a boundary at the very
    end does not open a further, empty line. *)
Fixpoint splitlines (s : text) : list text :=
  match s with
  | [] => []
  | c :: s' =>
      if is_linebreak c then
        [] :: (if N.eqb c CR
               then match s' with
                    | d :: s'' => if N.eqb d NL then splitlines s''
                                  else splitlines s'
                    | [] => splitlines s'
                    end
               else splitlines s')
      else
        match splitlines s' with
        | [] => [[c]]
        | l :: ls => (c :: l) :: ls
        end
  end.

(** [s.lstrip()], [s.rstrip()], [s.strip()] *)
Fixpoint lstrip (s : text) : text :=
  match s with
  | [] => []
  | c :: s' => if is_space c then lstrip s' else s
  end.

Fixpoint rstrip (s : text) : text :=
  match s with
  | [] => []
  | c :: s' =>
      match rstrip s' with
      | [] => if is_space c then [] else [c]
      | r => c :: r
      end
  end.

Definition strip (s : text) : text := rstrip (lstrip s).

(** [a == b] on strings. *)
Fixpoint text_eqb (a b : text) : bool :=
  match a, b with
  | [], [] => true
  | x :: a', y :: b' => N.eqb x y && text_eqb a' b'
  | _, _ => false
  end.

(** ** The regular expressions

    The fragment of Python's [re] that the four patterns use, with a
    backtracking matcher that lists the ways a pattern can match at a
    position in the order in which [re] tries them; the first one is the
    match [re] reports. *)

Inductive regex : Type :=
| Chr (p : char -> bool)               (* one character of a class *)
| Repeat (min : nat) (p : char -> bool)  (* class{min,}, greedy *)
| Seq (a b : regex)
| Opt (a : regex)                      (* (a)?, greedy *)
| Bos                                  (* ^ *)
| Eos                                  (* $ *)
| WordB.                               (* \b *)

Declare Scope regex_scope.
Delimit Scope regex_scope with re.
Infix ";;" := Seq (at level 61, right associativity) : regex_scope.

(** A position in the subject: the character before it, if any, and the
    text that is left. *)
Definition pos := (option char * text)%type.

Section Matcher.

(** [str.isalnum] on one code point, from the Unicode character
    database: [re] consults it for [\b]. *)
Variable isalnum : char -> bool.

Definition is_word (c : char) : bool :=
  (isalnum c || N.eqb c UNDERSCORE)%bool.

Definition word_at (o : option char) : bool :=
  match o with Some c => is_word c | None => false end.

Fixpoint star (p : char -> bool) (prev : option char) (s : text)
  : list pos :=
  match s with
  | c :: s' => if p c then star p (Some c) s' ++ [(prev, s)]
               else [(prev, s)]
  | [] => [(prev, [])]
  end.

Fixpoint rep (min : nat) (p : char -> bool) (prev : option char)
  (s : text) : list pos :=
  match min with
  | O => star p prev s
  | S m => match s with
           | c :: s' => if p c then rep m p (Some c) s' else []
           | [] => []
           end
  end.

Fixpoint run (r : regex) (k : pos) : list pos :=
  match r with
  | Chr p => match snd k with
             | c :: s' => if p c then [(Some c, s')] else []
             | [] => []
             end
  | Repeat min p => rep min p (fst k) (snd k)
  | Seq a b => flat_map (run b) (run a k)
  | Opt a => run a k ++ [k]
  | Bos => match fst k with None => [k] | Some _ => [] end
  | Eos => match snd k with
           | [] => [k]
           | [c] => if N.eqb c NL then [k] else []
           | _ => []
           end
  | WordB => if xorb (word_at (fst k)) (word_at (hd_error (snd k)))
             then [k] else []
  end.

(** Length of the match [re] finds at this position, if any. *)
Definition match_here (r : regex) (prev : option char) (s : text)
  : option nat :=
  match run r (prev, s) with
  | [] => None
  | (_, rest) :: _ => Some (length s - length rest)
  end.

(** [pattern.match(s)], as a truth value. *)
Definition re_match (r : regex) (s : text) : bool :=
  match match_here r None s with Some _ => true | None => false end.

(** [pattern.sub(repl, s)] for a literal replacement: the matches are
    taken from left to right without overlap.  [skip] counts the
    characters of the current match still to be passed over.  An empty
    match puts the replacement in front of the character it stands at; the
    patterns of this file never match the empty text (see
    [sub_patterns_never_empty]). *)
Fixpoint sub_from (r : regex) (repl : text) (prev : option char)
  (skip : nat) (s : text) : text :=
  match skip with
  | S k => match s with
           | [] => []
           | c :: s' => sub_from r repl (Some c) k s'
           end
  | O =>
      match match_here r prev s with
      | Some (S n) =>
          repl ++ match s with
                  | [] => []
                  | c :: s' => sub_from r repl (Some c) n s'
                  end
      | Some O =>
          repl ++ match s with
                  | [] => []
                  | c :: s' => c :: sub_from r repl (Some c) 0 s'
                  end
      | None =>
          match s with
          | [] => []
          | c :: s' => c :: sub_from r repl (Some c) 0 s'
          end
      end
  end.

Definition re_sub (r : regex) (repl : text) (s : text) : text :=
  sub_from r repl None 0 s.

(** RE_FENCED_DIV_LINE:  ^ \s* :::+ \s* ( \{ .* \} )? \s* $  *)
Definition RE_FENCED_DIV_LINE : regex :=
  (Bos ;; Repeat 0 is_space ;;
   Chr (is_chr COLON) ;; Chr (is_chr COLON) ;; Repeat 1 (is_chr COLON) ;;
   Repeat 0 is_space ;;
   Opt (Chr (is_chr LBRACE) ;; Repeat 0 is_dot ;; Chr (is_chr RBRACE)) ;;
   Repeat 0 is_space ;; Eos)%re.

(** RE_ATTR_TRAILING:  \s* \{ [^}]* \} \s* $  *)
Definition RE_ATTR_TRAILING : regex :=
  (Repeat 0 is_space ;; Chr (is_chr LBRACE) ;; Repeat 0 (not_chr RBRACE) ;;
   Chr (is_chr RBRACE) ;; Repeat 0 is_space ;; Eos)%re.

(** RE_HTML_TAG:  < /? ( [A-Za-z] [A-Za-z0-9]* ) \b [^>]* >  *)
Definition RE_HTML_TAG : regex :=
  (Chr (is_chr LT) ;; Opt (Chr (is_chr SLASH)) ;;
   Chr is_ascii_alpha ;; Repeat 0 is_ascii_alnum ;; WordB ;;
   Repeat 0 (not_chr GT) ;; Chr (is_chr GT))%re.

(** RE_MULTI_BLANK:  \n{3,}  *)
Definition RE_MULTI_BLANK : regex := Repeat 3 (is_chr NL).

(** ** clean_markdown *)

(** The body of the [for line in lines] loop: a fenced-container line
    is skipped, any other line is appended after the three edits. *)
Definition clean_line (line : text) : text :=
  rstrip (re_sub RE_HTML_TAG [] (re_sub RE_ATTR_TRAILING [] line)).

Fixpoint clean_lines (lines : list text) : list text :=
  match lines with
  | [] => []
  | line :: rest =>
      if re_match RE_FENCED_DIV_LINE line then clean_lines rest
      else clean_line line :: clean_lines rest
  end.

(** The line itself, or the empty line if [l.strip()] is empty. *)
Definition blank_line (l : text) : text :=
  if text_eqb (strip l) [] then [] else l.

Definition clean_markdown (md_text : text) : text :=
  let lines := splitlines md_text in
  let out_lines := clean_lines lines in
  let text1 := join [NL] out_lines in
  let text2 := re_sub RE_MULTI_BLANK [NL; NL] text1 in
  let text3 := join [NL] (List.map blank_line (splitlines text2)) in
  strip text3 ++ [NL].

(** The text right after blank runs are collapsed. *)
Definition collapsed (md_text : text) : text :=
  re_sub RE_MULTI_BLANK [NL; NL]
    (join [NL] (clean_lines (splitlines md_text))).

End Matcher.

(** The ASCII part of the alphanumeric table, to run the code on ASCII
    examples. *)
Definition isalnum_ascii (c : char) : bool := is_ascii_alnum c.

(** ** Shapes of texts used in the statements *)

(** Every line boundary of the text is a line feed. *)
Definition only_nl (t : text) : bool :=
  forallb (fun c => negb (is_linebreak c) || N.eqb c NL) t.

(** No line boundary at all: the text is (at most) one line. *)
Definition one_line (t : text) : bool :=
  forallb (fun c => negb (is_linebreak c)) t.

(** The line goes on: the text starts with a character that is no line
    feed. *)
Definition line_goes_on (t : text) : bool :=
  match t with d :: _ => negb (N.eqb d NL) | [] => false end.

(** A whitespace character other than the line feed is never the last
    character of a line: the line goes on after it. *)
Fixpoint tidy (t : text) : bool :=
  match t with
  | [] => true
  | c :: t' =>
      (negb (is_space c) || N.eqb c NL || line_goes_on t') && tidy t'
  end.

(** Three line feeds in a row occur somewhere in the text. *)
Fixpoint has_triple (t : text) : bool :=
  match t with
  | [] => false
  | c :: t' =>
      match t' with
      | d :: e :: _ => (N.eqb c NL && N.eqb d NL && N.eqb e NL) || has_triple t'
      | _ => false
      end
  end.

(** The text without its final line feed, if it has one. *)
Fixpoint chomp (t : text) : text :=
  match t with
  | [] => []
  | c :: t' =>
      match t' with
      | [] => if N.eqb c NL then [] else [c]
      | _ :: _ => c :: chomp t'
      end
  end.

Definition starts_nl (t : text) : bool :=
  match t with c :: _ => N.eqb c NL | [] => false end.

Definition ends_nl (t : text) : bool := starts_nl (rev t).

(** Two lists of positions that leave the same texts. *)
Definition same_rest (l1 l2 : list pos) : Prop :=
  Forall2 (fun x y => snd x = snd y) l1 l2.

(** Patterns without [^] and [\b] do not look at the character before the
    position. *)
Fixpoint context_free (r : regex) : bool :=
  match r with
  | Chr _ | Repeat _ _ | Eos => true
  | Seq a b => context_free a && context_free b
  | Opt a => context_free a
  | Bos | WordB => false
  end.

(** A line made of three or more colons, optionally followed by a
    brace-delimited attribute group. *)
Inductive container_line : text -> Prop :=
| container_bare n :
    3 <= n -> container_line (repeat COLON n)
| container_attr n gap body :
    3 <= n -> forallb is_space gap = true ->
    one_line gap = true -> one_line body = true ->
    container_line (repeat COLON n ++ gap ++ LBRACE :: body ++ [RBRACE]).

(** A line that is one brace-delimited attribute group. *)
Inductive attribute_line : text -> Prop :=
| attribute_group ws body ws' :
    forallb is_space ws = true ->
    forallb (not_chr RBRACE) body = true ->
    forallb is_space ws' = true ->
    one_line (ws ++ LBRACE :: body ++ RBRACE :: ws') = true ->
    attribute_line (ws ++ LBRACE :: body ++ RBRACE :: ws').

(** ** The path filter *)

Definition SKIP_DIRS : list text :=
  [lit ".vs"; lit "md_out"; lit "__pycache__"; lit ".git"].

(** Python exceptions met in the code, and what a call gives: a value or
    a raised exception. *)
Inductive exn : Type := ValueError.

Inductive outcome (A : Type) : Type :=
| Return (a : A)
| Raise (e : exn).
Arguments Return {A} a.
Arguments Raise {A} e.

(** A path as [pathlib] sees it: the sequence [path.parts].
    [path.relative_to(base)] gives the parts of [path] after those of
    [base], and raises ValueError when [path] does not start with them.
    This is pathlib for a base that has a part; for the base without
    parts pathlib raises as well when [path] has an anchor, which main
    never asks for: its base is a resolved directory. *)
Fixpoint relative_to (path base : list text) {struct base}
  : outcome (list text) :=
  match base with
  | [] => Return path
  | b :: base' =>
      match path with
      | p :: path' =>
          if text_eqb p b then relative_to path' base' else Raise ValueError
      | [] => Raise ValueError
      end
  end.

Definition is_in_skipped_dir (path base : list text) : outcome bool :=
  match relative_to path base with
  | Raise ValueError => Return false
  | Return rel_parts =>
      Return (existsb (fun part => existsb (text_eqb part) SKIP_DIRS)
                rel_parts)
  end.

(** ** The fallback driver *)

Definition TO_CANDIDATES : list text :=
  [lit "gfm-raw_html-fenced_divs-bracketed_spans";
   lit "gfm-raw_html-fenced_divs";
   lit "gfm-raw_html";
   lit "gfm";
   lit "markdown-raw_html";
   lit "markdown";
   lit "plain"].

Definition PANDOC_ARGS : list text := [lit "--wrap=none"].

(** Exceptions that reach the script from the calls it makes to the
    outside: the ones it names in an except clause, one more class of the
    operating system, any other class by its name, and an exception of
    the path functions above. *)
Inductive error : Type :=
| UnicodeDecodeError
| FileNotFoundError
| PermissionError
| OtherError (name : text)
| PathError (e : exn).

(** What a call to the outside gives: a value, or a raised exception. *)
Inductive attempt (A : Type) : Type :=
| Done (a : A)
| Failed (e : error).
Arguments Done {A} a.
Arguments Failed {A} e.

(** How [subprocess.run(cmd, check=True, capture_output=True, text=True)]
    ends once the process has ended and its output is decoded: it returns
    the captured streams for the exit status 0, and raises
    CalledProcessError, which carries them, for any other status. *)
Inductive completed : Type :=
| CompletedProcess (stdout stderr : text)
| CalledProcessError (stdout stderr : text).

(** The world outside the script: the file system, the converter, the
    console and the log.  Every operation can raise. *)
Record Host : Type := {
  World : Type;
  Path : Type;
  path_str : Path -> text;
  path_parent : Path -> Path;
  (* path.mkdir(parents=True, exist_ok=True) *)
  mkdir : Path -> World -> attempt unit * World;
  (* the child process: its exit status and the bytes of its output and
     error streams, or the exception of starting it *)
  spawn : list text -> World -> attempt (Z * list N * list N) * World;
  (* decoding of captured bytes in text mode; None stands for
     UnicodeDecodeError *)
  decode : list N -> option text;
  (* path.read_text(encoding=utf-8), strict and with errors=replace *)
  read_text : Path -> World -> attempt text;
  read_text_replace : Path -> World -> attempt text;
  (* path.write_text(text, encoding=utf-8) *)
  write_text : Path -> text -> World -> attempt unit * World;
  (* print(line), print(message, file=sys.stderr) with a message whose
     text is left out, and log.write(text) *)
  print_line : text -> World -> attempt unit * World;
  print_err : World -> attempt unit * World;
  log_write : text -> World -> attempt unit * World
}.

(** [subprocess.run(cmd, check=True, capture_output=True, text=True)]:
    the process is run to its end, both streams are decoded, and only
    then the exit status is looked at. *)
Definition subprocess_run (H : Host) (cmd : list text) (w : World H)
  : attempt completed * World H :=
  match spawn H cmd w with
  | (Failed e, w') => (Failed e, w')
  | (Done (returncode, out, err), w') =>
      match decode H out, decode H err with
      | Some stdout, Some stderr =>
          (Done (if Z.eqb returncode 0
                 then CompletedProcess stdout stderr
                 else CalledProcessError stdout stderr), w')
      | _, _ => (Failed UnicodeDecodeError, w')
      end
  end.

(** The state the driver runs in: the world, and the journal of the
    commands handed to [subprocess.run] so far, oldest first. *)
Record state (H : Host) : Type := {
  world : World H;
  invoked : list (list text)
}.
Arguments world {H} s.
Arguments invoked {H} s.

(** A piece of the script: from a state to a value or an exception, and
    the state left behind. *)
Definition action (H : Host) (A : Type) : Type :=
  state H -> attempt A * state H.

Definition ret {H : Host} {A : Type} (a : A) : action H A :=
  fun st => (Done a, st).

Definition bind {H : Host} {A B : Type} (m : action H A)
  (k : A -> action H B) : action H B :=
  fun st =>
    match m st with
    | (Done a, st1) => k a st1
    | (Failed e, st1) => (Failed e, st1)
    end.


(** An operation of the host as a piece of the script. *)
Definition in_world {H : Host} {A : Type}
  (op : World H -> attempt A * World H) : action H A :=
  fun st =>
    let (r, w) := op (world st) in
    (r, {| world := w; invoked := invoked st |}).

Declare Scope action_scope.
Delimit Scope action_scope with action.
Notation "x <- m ;; k" := (bind m (fun x => k))
  (at level 61, m at next level, right associativity) : action_scope.
Notation "' p <- m ;; k" := (bind m (fun p => k))
  (at level 61, p pattern, m at next level, right associativity)
  : action_scope.

(** [a or b] on strings. *)
Definition py_or (a b : text) : text :=
  match a with [] => b | _ :: _ => a end.

Section Driver.

Variable isalnum : char -> bool.
Variable H : Host.

Definition pandoc_cmd (docx_path out_md media_dir : Path H) (to_format : text)
  : list text :=
  [lit "pandoc"; lit "-f"; lit "docx"; lit "-t"; to_format;
   lit "--extract-media=" ++ path_str H media_dir]
  ++ PANDOC_ARGS ++ [path_str H docx_path; lit "-o"; path_str H out_md].

Definition run_pandoc (docx_path out_md media_dir : Path H) (to_format : text)
  : action H (bool * text) :=
  fun st =>
    let cmd := pandoc_cmd docx_path out_md media_dir to_format in
    let (p, w) := subprocess_run H cmd (world st) in
    let st' := {| world := w; invoked := invoked st ++ [cmd] |} in
    match p with
    | Done (CompletedProcess _ stderr) =>
        (Done (true, strip (py_or stderr [])), st')
    | Done (CalledProcessError stdout stderr) =>
        (Done (false, strip (py_or stderr (py_or stdout []))), st')
    | Failed e => (Failed e, st')
    end.

(** The reading of the output file: strictly, and once more with
    errors=replace when that raises UnicodeDecodeError and nothing
    else. *)
Definition read_output (out_md : Path H) : action H text :=
  fun st =>
    match read_text H out_md (world st) with
    | Failed UnicodeDecodeError => (read_text_replace H out_md (world st), st)
    | r => (r, st)
    end.

(** The [for to_format in TO_CANDIDATES] loop, from any point of the
    list on. *)
Fixpoint try_candidates (candidates : list text) (last_error : text)
  (docx_path out_md media_dir : Path H) : action H (bool * text * text) :=
  match candidates with
  | [] => ret (false, [], last_error)
  | to_format :: rest =>
      ('(ok, msg) <- run_pandoc docx_path out_md media_dir to_format ;;
       if ok : bool then
         md_text <- read_output out_md ;;
         _ <- in_world (write_text H out_md (clean_markdown isalnum md_text)) ;;
         ret (true, to_format, py_or msg [])
       else
         try_candidates rest (lit "[" ++ to_format ++ lit "] " ++ msg)
           docx_path out_md media_dir)%action
  end.

Definition convert_with_fallback (docx_path out_md media_dir : Path H)
  : action H (bool * text * text) :=
  (_ <- in_world (mkdir H (path_parent H out_md)) ;;
   _ <- in_world (mkdir H media_dir) ;;
   try_candidates TO_CANDIDATES [] docx_path out_md media_dir)%action.





End Driver.

(** Converters for the examples: no file system to speak of, the ASCII
    codec for the captured output, and a tool whose exit status and
    error stream depend on the format it is asked for. *)
Definition fake_host (tool : text -> Z * list N) : Host := {|
  World := unit;
  Path := text;
  path_str := fun p => p;
  path_parent := fun p => p;
  mkdir := fun _ w => (Done tt, w);
  spawn := fun cmd w =>
    (Done (fst (tool (nth 4 cmd [])), [], snd (tool (nth 4 cmd []))), w);
  decode := fun b => if forallb (fun c => N.ltb c 128) b then Some b else None;
  read_text := fun _ _ => Done (lit "text");
  read_text_replace := fun _ _ => Done (lit "text");
  write_text := fun _ _ w => (Done tt, w);
  print_line := fun _ w => (Done tt, w);
  print_err := fun w => (Done tt, w);
  log_write := fun _ w => (Done tt, w)
|}.

(** A tool that takes [gfm] only and says [boom] on the others; one that
    takes no format; and one that takes [gfm] only and puts a byte that
    does not decode on its error stream when it fails. *)
Definition gfm_only_host : Host :=
  fake_host (fun f => if text_eqb (lit "gfm") f then (0%Z, [])
                      else (1%Z, lit "boom" ++ [NL])).




Definition fresh (H : Host) (w : World H) : state H :=
  {| world := w; invoked := [] |}.

(** The least number of characters a match of the pattern takes. *)
Fixpoint min_len (r : regex) : nat :=
  match r with
  | Chr _ => 1
  | Repeat min _ => min
  | Seq a b => min_len a + min_len b
  | Opt _ | Bos | Eos | WordB => 0
  end.

(** ** check_pandoc *)

(** How check_pandoc ends: it returns a version line, or leaves the
    program with an exit status, or lets an exception pass that neither
    of its except clauses names, or an index is out of range. *)
Inductive checked : Type :=
| Version (v : text)
| SystemExit (code : N)
| Uncaught (e : error)
| IndexError.

(** The body of an except clause of check_pandoc: the message on the
    error stream, then SystemExit(1). *)
Definition report_and_exit (H : Host) (w : World H) : checked * World H :=
  match print_err H w with
  | (Done _, w') => (SystemExit 1, w')
  | (Failed e, w') => (Uncaught e, w')
  end.

Definition check_pandoc (H : Host) (w : World H) : checked * World H :=
  match subprocess_run H [lit "pandoc"; lit "--version"] w with
  | (Done (CompletedProcess stdout _), w') =>
      match (match stdout with
             | [] => Some []
             | _ :: _ => nth_error (splitlines stdout) 0
             end) with
      | Some l =>
          let first_line := strip l in
          (Version (py_or first_line (lit "pandoc (version unknown)")), w')
      | None => (IndexError, w')
      end
  | (Done (CalledProcessError _ _), w') => report_and_exit H w'
  | (Failed FileNotFoundError, w') => report_and_exit H w'
  | (Failed e, w') => (Uncaught e, w')
  end.


(** ** main: the documents and their output places *)

Definition DOT : char := 46%N.
Definition MEDIA_SUFFIX : text := lit "_media".

(** [s.startswith(prefix)] *)
Fixpoint startswith (s prefix : text) : bool :=
  match prefix with
  | [] => true
  | p :: prefix' =>
      match s with
      | c :: s' => N.eqb c p && startswith s' prefix'
      | [] => false
      end
  end.

(** [s.rfind(a)] for one character: the index of its last occurrence,
    [None] standing for -1. *)
Fixpoint rfind (a : char) (s : text) : option nat :=
  match s with
  | [] => None
  | c :: s' =>
      match rfind a s' with
      | Some i => Some (S i)
      | None => if N.eqb c a then Some 0 else None
      end
  end.

(** [path.name], [path.parent] and [path / other] on the parts of a path
    that is more than an anchor; [name.suffix] and [name.stem] as pathlib
    computes them from the last dot of the name (a dot at the start or at
    the end of the name opens no suffix). *)
Definition path_name (path : list text) : text := last path [].

Definition parent (path : list text) : list text := removelast path.

Definition suffix (name : text) : text :=
  match rfind DOT name with
  | Some i => if (0 <? i) && (i <? length name - 1) then skipn i name else []
  | None => []
  end.

Definition stem (name : text) : text :=
  match rfind DOT name with
  | Some i => if (0 <? i) && (i <? length name - 1) then firstn i name
              else name
  | None => name
  end.

(** [path.with_suffix(sfx)], for a suffix that is well formed as [.md]
    is: ValueError for a path with an empty name. *)
Definition with_suffix (path : list text) (sfx : text)
  : outcome (list text) :=
  match path_name path with
  | [] => Raise ValueError
  | name =>
      let old := suffix name in
      let new_name :=
        match old with
        | [] => name ++ sfx
        | _ :: _ => firstn (length name - length old) name ++ sfx
        end in
      Return (parent path ++ [new_name])
  end.

(** The loop of main that collects the documents, before they are
    sorted: [found] is what [input_dir.rglob] yields. *)
Fixpoint select_docx (found : list (list text)) (input_dir : list text)
  : outcome (list (list text)) :=
  match found with
  | [] => Return []
  | f :: rest =>
      match is_in_skipped_dir f input_dir with
      | Raise e => Raise e
      | Return true => select_docx rest input_dir
      | Return false =>
          if startswith (path_name f) (lit "~$")
          then select_docx rest input_dir
          else match select_docx rest input_dir with
               | Return docx_files => Return (f :: docx_files)
               | Raise e => Raise e
               end
      end
  end.

(** The three paths main computes for a document: [rel], [out_md] and
    [media_dir]. *)
Definition output_paths (docx input_dir output_dir : list text)
  : outcome (list text * list text * list text) :=
  match relative_to docx input_dir with
  | Raise e => Raise e
  | Return rel =>
      match with_suffix (output_dir ++ rel) (lit ".md") with
      | Raise e => Raise e
      | Return out_md =>
          Return (rel, out_md,
                  parent out_md ++ [stem (path_name out_md) ++ MEDIA_SUFFIX])
      end
  end.


Section Batch.

Variable isalnum : char -> bool.
Variable H : Host.
(** The host's path for the parts of a path. *)
Variable of_parts : list text -> Path H.




End Batch.


(** * Properties *)

(** ** Characters *)

Lemma linebreak_is_space c : is_linebreak c = true -> is_space c = true.
Proof.
  unfold is_linebreak, is_space, in_range.
  rewrite !orb_true_iff, !andb_true_iff, !N.leb_le, !N.eqb_eq. lia.
Qed.

Lemma NL_space : is_space NL = true.
Proof. reflexivity. Qed.

Lemma NL_linebreak : is_linebreak NL = true.
Proof. reflexivity. Qed.

Lemma not_linebreak_not_NL c : is_linebreak c = false -> N.eqb c NL = false.
Proof.
  intros H. destruct (N.eqb_spec c NL) as [->|]; [discriminate H | reflexivity].
Qed.

(** ** [rstrip], [lstrip], [strip] *)

Lemma rstrip_nil_iff s : rstrip s = [] <-> forallb is_space s = true.
Proof.
  induction s as [|c s IH]; simpl; [tauto|].
  destruct (rstrip s) eqn:E.
  - destruct (is_space c); simpl.
    + tauto.
    + split; discriminate.
  - split; [discriminate|].
    rewrite andb_true_iff. intros [_ H]. apply IH in H. discriminate.
Qed.

Lemma rstrip_cons c s :
  rstrip (c :: s) =
  if forallb is_space s then (if is_space c then [] else [c])
  else c :: rstrip s.
Proof.
  simpl. destruct (rstrip s) eqn:E.
  - apply rstrip_nil_iff in E. rewrite E. reflexivity.
  - destruct (forallb is_space s) eqn:F; [|reflexivity].
    apply rstrip_nil_iff in F. congruence.
Qed.

Lemma rstrip_snoc s c :
  rstrip (s ++ [c]) = if is_space c then rstrip s else s ++ [c].
Proof.
  induction s as [|d s IH].
  - simpl. destruct (is_space c); reflexivity.
  - change ((d :: s) ++ [c]) with (d :: (s ++ [c])).
    rewrite !rstrip_cons, IH, forallb_app. simpl. rewrite andb_true_r.
    destruct (is_space c).
    + rewrite andb_true_r. reflexivity.
    + rewrite andb_false_r. reflexivity.
Qed.

Lemma rstrip_fixed_snoc s c : is_space c = false -> rstrip (s ++ [c]) = s ++ [c].
Proof. intros H. rewrite rstrip_snoc, H. reflexivity. Qed.

Lemma rstrip_last s a c : rstrip s = a ++ [c] -> is_space c = false.
Proof.
  induction s as [|d s IH] using rev_ind; [destruct a; discriminate|].
  rewrite rstrip_snoc. destruct (is_space d) eqn:D; [exact IH|].
  intros H. apply app_inj_tail in H. destruct H as [_ ->]. exact D.
Qed.

Lemma rstrip_idem s : rstrip (rstrip s) = rstrip s.
Proof.
  induction s as [|d s IH] using rev_ind; [reflexivity|].
  rewrite rstrip_snoc. destruct (is_space d) eqn:D; [exact IH|].
  apply rstrip_fixed_snoc, D.
Qed.

(** What [rstrip] leaves out is whitespace. *)
Lemma rstrip_split s : exists w, s = rstrip s ++ w /\ forallb is_space w = true.
Proof.
  induction s as [|d s IH] using rev_ind; [exists []; auto|].
  rewrite rstrip_snoc. destruct (is_space d) eqn:D.
  - destruct IH as [w [E F]]. exists (w ++ [d]). split.
    + rewrite app_assoc, <- E. reflexivity.
    + rewrite forallb_app, F. simpl. rewrite D. reflexivity.
  - exists []. rewrite app_nil_r. auto.
Qed.

Lemma rstrip_fixed_iff s :
  rstrip s = s <-> (forall a c, s = a ++ [c] -> is_space c = false).
Proof.
  split.
  - intros H a c E. rewrite E in H. eapply rstrip_last; eauto.
  - destruct s as [|d s] using rev_ind; [reflexivity|].
    intros H. apply rstrip_fixed_snoc. eapply H; reflexivity.
Qed.

Lemma rstrip_forall (P : char -> bool) s :
  forallb P s = true -> forallb P (rstrip s) = true.
Proof.
  destruct (rstrip_split s) as [w [E _]]. rewrite E at 1.
  rewrite forallb_app, andb_true_iff. tauto.
Qed.

Lemma lstrip_split s : exists w, s = w ++ lstrip s /\ forallb is_space w = true.
Proof.
  induction s as [|c s IH]; [exists []; auto|].
  simpl. destruct (is_space c) eqn:C.
  - destruct IH as [w [E F]]. exists (c :: w). simpl. rewrite C, <- E. auto.
  - exists []. auto.
Qed.

Lemma lstrip_forall (P : char -> bool) s :
  forallb P s = true -> forallb P (lstrip s) = true.
Proof.
  destruct (lstrip_split s) as [w [E _]]. rewrite E at 1.
  rewrite forallb_app, andb_true_iff. tauto.
Qed.

Lemma lstrip_head s : 
  match lstrip s with c :: _ => is_space c = false | [] => True end.
Proof.
  induction s as [|c s IH]; simpl; [exact I|].
  destruct (is_space c) eqn:C; [exact IH | exact C].
Qed.

Lemma lstrip_fixed c s : is_space c = false -> lstrip (c :: s) = c :: s.
Proof. intros H. simpl. rewrite H. reflexivity. Qed.

Lemma lstrip_all_space s : forallb is_space s = true -> lstrip s = [].
Proof.
  induction s as [|c s IH]; simpl; [reflexivity|].
  destruct (is_space c); simpl; [exact IH | discriminate].
Qed.

Lemma lstrip_app_space w s : forallb is_space w = true -> lstrip (w ++ s) = lstrip s.
Proof.
  induction w as [|c w IH]; simpl; [reflexivity|].
  destruct (is_space c); simpl; [exact IH | discriminate].
Qed.

Lemma rstrip_head c s : is_space c = false -> exists r, rstrip (c :: s) = c :: r.
Proof.
  intros H. rewrite rstrip_cons, H.
  destruct (forallb is_space s); eauto.
Qed.

Lemma strip_forall (P : char -> bool) s :
  forallb P s = true -> forallb P (strip s) = true.
Proof. intros H. apply rstrip_forall, lstrip_forall, H. Qed.

Lemma strip_all_space s : forallb is_space s = true -> strip s = [].
Proof. intros H. unfold strip. rewrite lstrip_all_space; auto. Qed.

Lemma strip_idem s : strip (strip s) = strip s.
Proof.
  unfold strip. pose proof (lstrip_head s) as H.
  destruct (lstrip s) as [|c t]; [reflexivity|].
  destruct (rstrip_head c t H) as [r E]. rewrite E.
  rewrite lstrip_fixed by exact H. rewrite <- E. apply rstrip_idem.
Qed.

Lemma strip_last s a c : strip s = a ++ [c] -> is_space c = false.
Proof. apply rstrip_last. Qed.

Lemma strip_snoc_NL s : strip (s ++ [NL]) = strip s.
Proof.
  unfold strip. destruct (lstrip_split s) as [w [E F]].
  rewrite E at 1. rewrite <- app_assoc, lstrip_app_space by exact F.
  destruct (lstrip s) as [|c t] eqn:L; [reflexivity|].
  pose proof (lstrip_head s) as H. rewrite L in H.
  change ((c :: t) ++ [NL]) with (c :: (t ++ [NL])).
  rewrite lstrip_fixed by exact H.
  change (c :: (t ++ [NL])) with ((c :: t) ++ [NL]).
  rewrite rstrip_snoc. reflexivity.
Qed.

(** ** [splitlines] and [join] *)

Lemma splitlines_CRLF s : splitlines (CR :: NL :: s) = [] :: splitlines s.
Proof. reflexivity. Qed.

Lemma splitlines_NL s : splitlines (NL :: s) = [] :: splitlines s.
Proof. reflexivity. Qed.

Lemma splitlines_break c s :
  is_linebreak c = true -> (c = CR -> starts_nl s = false) ->
  splitlines (c :: s) = [] :: splitlines s.
Proof.
  intros L H. simpl. rewrite L.
  destruct (N.eqb_spec c CR) as [E|]; [|reflexivity].
  specialize (H E). destruct s as [|d s]; [reflexivity|].
  simpl in H. rewrite H. reflexivity.
Qed.

Lemma splitlines_char c s :
  is_linebreak c = false ->
  splitlines (c :: s) =
  match splitlines s with [] => [[c]] | l :: ls => (c :: l) :: ls end.
Proof. intros L. simpl. rewrite L. reflexivity. Qed.

(** Induction along the way [splitlines] reads a text. *)
Lemma splitlines_ind (P : list N -> Prop) :
  P [] ->
  (forall s, P s -> P (CR :: NL :: s)) ->
  (forall c s, is_linebreak c = true -> (c = CR -> starts_nl s = false) ->
               P s -> P (c :: s)) ->
  (forall c s, is_linebreak c = false -> P s -> P (c :: s)) ->
  forall s : list N, P s.
Proof.
  intros Hnil Hcrlf Hbrk Hchr s.
  assert (H : forall n s, length s <= n -> P s).
  { clear s. induction n as [|n IH]; intros s Hlen.
    - destruct s; [exact Hnil | simpl in Hlen; lia].
    - destruct s as [|c s]; [exact Hnil|]. simpl in Hlen.
      destruct (is_linebreak c) eqn:L.
      + destruct (N.eqb_spec c CR) as [->|NE].
        * destruct s as [|d s].
          -- apply Hbrk; auto.
          -- destruct (N.eqb_spec d NL) as [->|ND].
             ++ apply Hcrlf. apply IH. simpl in Hlen. lia.
             ++ apply Hbrk; auto.
                ** intros _. simpl. apply N.eqb_neq, ND.
                ** apply IH. lia.
        * apply Hbrk; auto; [congruence | apply IH; lia].
      + apply Hchr; auto. apply IH. lia. }
  apply (H (length s)). lia.
Qed.

Lemma splitlines_nil_iff s : splitlines s = [] <-> s = [].
Proof.
  split; [|intros ->; reflexivity].
  destruct s as [|c s]; [reflexivity|]. simpl.
  destruct (is_linebreak c); [discriminate|].
  destruct (splitlines s); discriminate.
Qed.

Lemma splitlines_first_nil s ls :
  splitlines s = [] :: ls ->
  exists c s', s = c :: s' /\ is_linebreak c = true.
Proof.
  destruct s as [|c s]; [discriminate|]. simpl.
  destruct (is_linebreak c) eqn:L; [eauto|].
  destruct (splitlines s); discriminate.
Qed.

(** The lines hold no line boundary. *)
Lemma splitlines_one_line s :
  Forall (fun l => one_line l = true) (splitlines s).
Proof.
  induction s as [| s IH | c s L H IH | c s L IH] using splitlines_ind.
  - constructor.
  - rewrite splitlines_CRLF. constructor; [reflexivity | exact IH].
  - rewrite splitlines_break by assumption. constructor; [reflexivity | exact IH].
  - rewrite splitlines_char by assumption.
    destruct (splitlines s) as [|l ls].
    + constructor; [|constructor]. simpl. rewrite L. reflexivity.
    + inversion IH; subst. constructor; [|assumption].
      simpl. rewrite L. assumption.
Qed.

Lemma splitlines_line l t :
  one_line l = true -> splitlines (l ++ NL :: t) = l :: splitlines t.
Proof.
  induction l as [|c l IH]; intros H; [reflexivity|].
  simpl in H. apply andb_true_iff in H. destruct H as [C H].
  apply negb_true_iff in C.
  change ((c :: l) ++ NL :: t) with (c :: (l ++ NL :: t)).
  rewrite splitlines_char, IH by assumption. reflexivity.
Qed.

Lemma splitlines_single l :
  one_line l = true -> l <> [] -> splitlines l = [l].
Proof.
  induction l as [|c l IH]; intros H NE; [congruence|].
  simpl in H. apply andb_true_iff in H. destruct H as [C H].
  apply negb_true_iff in C. rewrite splitlines_char by assumption.
  destruct l as [|d l]; [reflexivity|].
  rewrite IH by (assumption || discriminate). reflexivity.
Qed.

(** A line feed closes the line it ends, whatever follows. *)
Lemma splitlines_app_NL u v :
  splitlines (u ++ NL :: v) = splitlines (u ++ [NL]) ++ splitlines v.
Proof.
  induction u as [| s IH | c s L H IH | c s L IH] using splitlines_ind.
  - reflexivity.
  - change ((CR :: NL :: s) ++ NL :: v) with (CR :: NL :: (s ++ NL :: v)).
    change ((CR :: NL :: s) ++ [NL]) with (CR :: NL :: (s ++ [NL])).
    rewrite !splitlines_CRLF, IH. reflexivity.
  - destruct s as [|d s].
    + destruct (N.eqb_spec c CR) as [->|NE]; [reflexivity|].
      change (splitlines (c :: NL :: v)
              = splitlines (c :: [NL]) ++ splitlines v).
      rewrite !(splitlines_break c); auto; congruence.
    + change ((c :: d :: s) ++ NL :: v) with (c :: ((d :: s) ++ NL :: v)).
      change ((c :: d :: s) ++ [NL]) with (c :: ((d :: s) ++ [NL])).
      rewrite !splitlines_break, IH; auto.
  - change ((c :: s) ++ NL :: v) with (c :: (s ++ NL :: v)).
    change ((c :: s) ++ [NL]) with (c :: (s ++ [NL])).
    rewrite !splitlines_char, IH by assumption.
    destruct (splitlines (s ++ [NL])) eqn:E; [|reflexivity].
    apply splitlines_nil_iff in E. destruct s; discriminate.
Qed.

Lemma join_cons_cons sep c l ls :
  join sep ((c :: l) :: ls) = c :: join sep (l :: ls).
Proof. simpl. destruct ls; reflexivity. Qed.

Lemma join_cons sep l ls :
  ls <> [] -> join sep (l :: ls) = l ++ sep ++ join sep ls.
Proof. destruct ls; [congruence | reflexivity]. Qed.

Lemma only_nl_cons c t :
  only_nl (c :: t) = true ->
  (is_linebreak c = true -> c = NL) /\ only_nl t = true.
Proof.
  unfold only_nl. simpl. rewrite andb_true_iff, orb_true_iff, negb_true_iff.
  intros [[H|H] T]; split; auto.
  - congruence.
  - intros _. apply N.eqb_eq, H.
Qed.

(** Joining the lines of a text gives the text back, short of a final
    line feed. *)
Lemma join_splitlines t :
  only_nl t = true -> join [NL] (splitlines t) = chomp t.
Proof.
  induction t as [|c t IH]; intros H; [reflexivity|].
  apply only_nl_cons in H. destruct H as [HC HT]. specialize (IH HT).
  destruct (is_linebreak c) eqn:L.
  - rewrite (HC eq_refl), splitlines_NL.
    destruct t as [|d t]; [reflexivity|].
    rewrite join_cons.
    + rewrite IH. reflexivity.
    + intros E. apply splitlines_nil_iff in E. discriminate.
  - rewrite splitlines_char by assumption.
    pose proof (not_linebreak_not_NL c L) as NE.
    destruct (splitlines t) as [|l ls] eqn:E.
    + apply splitlines_nil_iff in E. subst t. simpl. rewrite NE. reflexivity.
    + rewrite join_cons_cons, IH. destruct t; [discriminate E | reflexivity].
Qed.

(** In a tidy text no line has whitespace at its end. *)
Lemma splitlines_tidy t :
  only_nl t = true -> tidy t = true ->
  Forall (fun l => rstrip l = l) (splitlines t).
Proof.
  induction t as [|c t IH]; intros H T; [constructor|].
  apply only_nl_cons in H. destruct H as [HC HT].
  simpl in T. apply andb_true_iff in T. destruct T as [TC TT].
  specialize (IH HT TT).
  destruct (is_linebreak c) eqn:L.
  - rewrite (HC eq_refl), splitlines_NL. constructor; [reflexivity | exact IH].
  - rewrite splitlines_char by assumption.
    rewrite (not_linebreak_not_NL c L), orb_false_r in TC.
    destruct (splitlines t) as [|l ls] eqn:E.
    + apply splitlines_nil_iff in E. subst t.
      rewrite orb_false_r in TC. apply negb_true_iff in TC.
      constructor; [|constructor]. simpl. rewrite TC. reflexivity.
    + inversion IH as [|? ? Hl Hls]; subst. constructor; [|assumption].
      destruct l as [|d l].
      * apply splitlines_first_nil in E. destruct E as [d [t' [-> Ld]]].
        apply only_nl_cons in HT.
        destruct HT as [Hd _]. rewrite (Hd Ld) in TC. simpl in TC.
        rewrite orb_false_r in TC. apply negb_true_iff in TC.
        simpl. rewrite TC. reflexivity.
      * rewrite rstrip_cons.
        destruct (forallb is_space (d :: l)) eqn:F; [|rewrite Hl; reflexivity].
        apply rstrip_nil_iff in F. congruence.
Qed.

Lemma text_eqb_eq a b : text_eqb a b = true <-> a = b.
Proof.
  revert b. induction a as [|x a IH]; intros [|y b]; simpl;
    try (split; [discriminate | discriminate]); [tauto|].
  rewrite andb_true_iff, N.eqb_eq, IH.
  split; [intros [-> ->]; reflexivity | intros E; inversion E; auto].
Qed.

Lemma blank_line_fixed l : rstrip l = l -> blank_line l = l.
Proof.
  intros H. unfold blank_line.
  destruct (text_eqb (strip l) []) eqn:E; [|reflexivity].
  apply text_eqb_eq in E.
  unfold strip in E. apply rstrip_nil_iff in E.
  destruct (lstrip_split l) as [w [E1 F]].
  assert (A : forallb is_space l = true).
  { rewrite E1, forallb_app, F, E. reflexivity. }
  apply rstrip_nil_iff in A. congruence.
Qed.

Lemma chomp_cons c t : t <> [] -> chomp (c :: t) = c :: chomp t.
Proof. destruct t; [congruence | reflexivity]. Qed.

Lemma chomp_snoc t d :
  chomp (t ++ [d]) = if N.eqb d NL then t else t ++ [d].
Proof.
  induction t as [|c t IH]; [reflexivity|].
  change ((c :: t) ++ [d]) with (c :: (t ++ [d])).
  rewrite chomp_cons, IH by (destruct t; discriminate).
  destruct (N.eqb d NL); reflexivity.
Qed.

Lemma strip_chomp t : strip (chomp t) = strip t.
Proof.
  destruct t as [|d t] using rev_ind; [reflexivity|].
  rewrite chomp_snoc. destruct (N.eqb_spec d NL) as [->|]; [|reflexivity].
  symmetry. apply strip_snoc_NL.
Qed.

(** ** The matcher *)

Lemma star_self p prev s : In (prev, s) (star p prev s).
Proof.
  destruct s as [|c s]; simpl; [auto|].
  destruct (p c); [apply in_or_app; right|]; simpl; auto.
Qed.

Lemma star_sound p prev s q r :
  In (q, r) (star p prev s) ->
  exists a, s = a ++ r /\ forallb p a = true.
Proof.
  revert prev. induction s as [|c s IH]; intros prev; simpl.
  - intros [E|[]]. inversion E; subst. exists []. auto.
  - destruct (p c) eqn:C.
    + intros H. apply in_app_or in H. destruct H as [H|[E|[]]].
      * apply IH in H. destruct H as [a [-> F]].
        exists (c :: a). simpl. rewrite C, F. auto.
      * inversion E; subst. exists []. auto.
    + intros [E|[]]. inversion E; subst. exists []. auto.
Qed.

Lemma star_complete p prev a r :
  forallb p a = true -> exists q, In (q, r) (star p prev (a ++ r)).
Proof.
  revert prev. induction a as [|c a IH]; intros prev F.
  - exists prev. apply star_self.
  - simpl in F. apply andb_true_iff in F. destruct F as [C F].
    destruct (IH (Some c) F) as [q H]. exists q.
    simpl. rewrite C. apply in_or_app. auto.
Qed.

(** The first way [star] offers is the longest one. *)
Lemma star_hd p prev a t :
  forallb p a = true ->
  match t with c :: _ => p c = false | [] => True end ->
  exists q rest, star p prev (a ++ t) = (q, t) :: rest.
Proof.
  revert prev. induction a as [|c a IH]; intros prev F T.
  - destruct t as [|c t]; simpl; [eauto|]. rewrite T. eauto.
  - simpl in F. apply andb_true_iff in F. destruct F as [C F].
    destruct (IH (Some c) F T) as [q [rest E]].
    simpl. rewrite C, E. simpl. eauto.
Qed.

Lemma rep_sound n p prev s q r :
  In (q, r) (rep n p prev s) ->
  exists a, s = a ++ r /\ forallb p a = true /\ n <= length a.
Proof.
  revert prev s. induction n as [|n IH]; intros prev s; simpl.
  - intros H. apply star_sound in H. destruct H as [a [E F]].
    exists a. repeat split; auto. lia.
  - destruct s as [|c s]; [intros []|].
    destruct (p c) eqn:C; [|intros []].
    intros H. apply IH in H. destruct H as [a [-> [F L]]].
    exists (c :: a). simpl. rewrite C, F. repeat split; auto. lia.
Qed.

Lemma rep_complete n p prev a r :
  forallb p a = true -> n <= length a ->
  exists q, In (q, r) (rep n p prev (a ++ r)).
Proof.
  revert prev a. induction n as [|n IH]; intros prev a F L.
  - apply star_complete, F.
  - destruct a as [|c a]; simpl in L; [lia|].
    simpl in F. apply andb_true_iff in F. destruct F as [C F].
    simpl. rewrite C. apply IH; auto. lia.
Qed.

Lemma rep_hd n p prev a t :
  forallb p a = true -> n <= length a ->
  match t with c :: _ => p c = false | [] => True end ->
  exists q rest, rep n p prev (a ++ t) = (q, t) :: rest.
Proof.
  revert prev a. induction n as [|n IH]; intros prev a F L T.
  - apply star_hd; auto.
  - destruct a as [|c a]; simpl in L; [lia|].
    simpl in F. apply andb_true_iff in F. destruct F as [C F].
    simpl. rewrite C. apply IH; auto. lia.
Qed.


Lemma same_rest_app l1 l2 m1 m2 :
  same_rest l1 l2 -> same_rest m1 m2 -> same_rest (l1 ++ m1) (l2 ++ m2).
Proof. apply Forall2_app. Qed.

Lemma star_same_rest p p1 p2 s : same_rest (star p p1 s) (star p p2 s).
Proof.
  revert p1 p2. induction s as [|c s IH]; intros p1 p2; simpl.
  - repeat constructor.
  - destruct (p c).
    + apply same_rest_app; [apply IH | repeat constructor].
    + repeat constructor.
Qed.

Lemma rep_same_rest n p p1 p2 s : same_rest (rep n p p1 s) (rep n p p2 s).
Proof.
  revert p1 p2 s. induction n as [|n IH]; intros p1 p2 s; simpl.
  - apply star_same_rest.
  - destruct s as [|c s]; [constructor|].
    destruct (p c); [apply IH | constructor].
Qed.


Section MatcherFacts.

Variable isalnum : char -> bool.

Lemma run_same_rest r :
  context_free r = true ->
  forall k1 k2, snd k1 = snd k2 -> same_rest (run isalnum r k1) (run isalnum r k2).
Proof.
  induction r as [p | n p | a IHa b IHb | a IHa | | |]; simpl; intros C;
    try discriminate; intros [p1 s1] [p2 s2] E; simpl in E; subst s2; simpl.
  - destruct s1 as [|c s]; [constructor|].
    destruct (p c); repeat constructor.
  - apply rep_same_rest.
  - apply andb_true_iff in C. destruct C as [Ca Cb].
    specialize (IHa Ca (p1, s1) (p2, s1) eq_refl).
    induction IHa as [|x y l1 l2 Hxy Hl IH]; simpl; [constructor|].
    apply same_rest_app; [apply IHb; auto | exact IH].
  - apply same_rest_app; [apply IHa; auto | repeat constructor].
  - destruct s1 as [|c [|d s]]; [repeat constructor | | constructor].
    destruct (N.eqb c NL); repeat constructor.
Qed.

Lemma match_here_context_free r p1 p2 s :
  context_free r = true -> match_here isalnum r p1 s = match_here isalnum r p2 s.
Proof.
  intros C. unfold match_here.
  pose proof (run_same_rest r C (p1, s) (p2, s) eq_refl) as H.
  inversion H as [|[q1 r1] [q2 r2] l1 l2 E _]; [reflexivity|].
  simpl in E. subst. reflexivity.
Qed.

Lemma sub_from_context_free r repl p1 p2 k s :
  context_free r = true ->
  sub_from isalnum r repl p1 k s = sub_from isalnum r repl p2 k s.
Proof.
  intros C. destruct s as [|c s].
  - destruct k; simpl; [|reflexivity].
    rewrite (match_here_context_free r p1 p2 [] C). reflexivity.
  - destruct k; simpl; [|reflexivity].
    rewrite (match_here_context_free r p1 p2 (c :: s) C). reflexivity.
Qed.

(** Whatever is put out comes from the subject or from the replacement. *)
Lemma sub_from_forall (P : char -> bool) r repl prev k s :
  forallb P repl = true -> forallb P s = true ->
  forallb P (sub_from isalnum r repl prev k s) = true.
Proof.
  intros R. revert prev k. induction s as [|c s IH]; intros prev k F.
  - destruct k; simpl; [|reflexivity].
    destruct (match_here isalnum r prev []) as [[|n]|]; simpl;
      rewrite ?forallb_app, ?R; reflexivity.
  - simpl in F. apply andb_true_iff in F. destruct F as [Pc F].
    destruct k; simpl; [|apply IH, F].
    destruct (match_here isalnum r prev (c :: s)) as [[|n]|]; simpl;
      rewrite ?forallb_app, ?R; simpl; rewrite ?Pc, ?IH; auto.
Qed.

(** Passing over the rest of a match. *)
Lemma sub_from_skip r repl prev a t :
  exists q, sub_from isalnum r repl prev (length a) (a ++ t) = sub_from isalnum r repl q 0 t.
Proof.
  revert prev. induction a as [|c a IH]; intros prev; simpl; [eauto|].
  apply IH.
Qed.

Lemma sub_from_nomatch r repl prev c s :
  match_here isalnum r prev (c :: s) = None ->
  sub_from isalnum r repl prev 0 (c :: s) = c :: sub_from isalnum r repl (Some c) 0 s.
Proof. intros H. simpl. rewrite H. reflexivity. Qed.

Lemma sub_from_match r repl prev c a t :
  match_here isalnum r prev (c :: a ++ t) = Some (S (length a)) ->
  exists q, sub_from isalnum r repl prev 0 (c :: a ++ t)
            = repl ++ sub_from isalnum r repl q 0 t.
Proof.
  intros H. simpl. rewrite H.
  destruct (sub_from_skip r repl (Some c) a t) as [q E].
  exists q. rewrite E. reflexivity.
Qed.

End MatcherFacts.

(** ** Runs of line feeds *)

Lemma nl_run_split (t : list N) :
  exists k t', t = repeat NL k ++ t' /\ starts_nl t' = false.
Proof.
  induction t as [|c t IH]; [exists 0, []; auto|].
  destruct (N.eqb c NL) eqn:C.
  - apply N.eqb_eq in C. subst c. destruct IH as [k [t' [-> H]]].
    exists (S k), t'. auto.
  - exists 0, (c :: t). auto.
Qed.

(** Induction on a text read as characters and runs of line feeds. *)
Lemma nl_runs_ind (P : list N -> Prop) :
  P [] ->
  (forall c t, N.eqb c NL = false -> P t -> P (c :: t)) ->
  (forall k t, 1 <= k -> starts_nl t = false -> P t ->
               P (repeat NL k ++ t)) ->
  forall t : list N, P t.
Proof.
  intros Hnil Hchr Hrun t.
  assert (H : forall n t, length t <= n -> P t).
  { clear t. induction n as [|n IH]; intros t Hlen.
    - destruct t; [exact Hnil | simpl in Hlen; lia].
    - destruct t as [|c t]; [exact Hnil|]. simpl in Hlen.
      destruct (N.eqb c NL) eqn:C.
      + apply N.eqb_eq in C. subst c.
        destruct (nl_run_split t) as [k [t' [-> S']]].
        apply (Hrun (S k) t'); [lia | exact S' |].
        apply IH. rewrite length_app in Hlen. lia.
      + apply Hchr; [exact C | apply IH; lia]. }
  apply (H (length t)). lia.
Qed.

Lemma has_triple_char c t :
  N.eqb c NL = false -> has_triple (c :: t) = has_triple t.
Proof.
  intros C. destruct t as [|d [|e t]]; try reflexivity.
  change (has_triple (c :: d :: e :: t))
    with ((N.eqb c NL && N.eqb d NL && N.eqb e NL) || has_triple (d :: e :: t)).
  rewrite C. reflexivity.
Qed.

Lemma has_triple_run k t :
  starts_nl t = false ->
  has_triple (repeat NL k ++ t) = (3 <=? k) || has_triple t.
Proof.
  intros T.
  assert (H1 : has_triple (NL :: t) = has_triple t).
  { destruct t as [|d [|e t]]; try reflexivity. simpl in T.
    change (has_triple (NL :: d :: e :: t))
      with ((N.eqb NL NL && N.eqb d NL && N.eqb e NL)
            || has_triple (d :: e :: t)).
    rewrite T. reflexivity. }
  assert (H2 : has_triple (NL :: NL :: t) = has_triple t).
  { rewrite <- H1. destruct t as [|d t]; [reflexivity|]. simpl in T.
    change (has_triple (NL :: NL :: d :: t))
      with ((N.eqb NL NL && N.eqb NL NL && N.eqb d NL)
            || has_triple (NL :: d :: t)).
    rewrite T. reflexivity. }
  destruct k as [|[|[|k]]]; simpl repeat; simpl app; auto.
Qed.

Lemma has_triple_spec t :
  has_triple t = false -> forall a b, t <> a ++ NL :: NL :: NL :: b.
Proof.
  intros H a. revert t H. induction a as [|c a IH]; intros t H b E; subst t.
  - discriminate H.
  - change ((c :: a) ++ NL :: NL :: NL :: b)
      with (c :: (a ++ NL :: NL :: NL :: b)) in H.
    apply (IH (a ++ NL :: NL :: NL :: b)) with (b := b); [|reflexivity].
    simpl in H. destruct (a ++ NL :: NL :: NL :: b) as [|d [|e t]] eqn:E;
      try reflexivity.
    apply orb_false_iff in H. apply H.
Qed.

Lemma has_triple_suffix a t : has_triple (a ++ t) = false -> has_triple t = false.
Proof.
  induction a as [|c a IH]; [auto|].
  change ((c :: a) ++ t) with (c :: (a ++ t)). intros H. apply IH.
  simpl in H. destruct (a ++ t) as [|d [|e u]]; try reflexivity.
  apply orb_false_iff in H. apply H.
Qed.

Lemma has_triple_prefix t w : has_triple (t ++ w) = false -> has_triple t = false.
Proof.
  induction t as [|c t IH]; [auto|].
  change ((c :: t) ++ w) with (c :: (t ++ w)). intros H.
  destruct t as [|d [|e t]]; try reflexivity.
  change (has_triple (c :: ((d :: e :: t) ++ w)))
    with ((N.eqb c NL && N.eqb d NL && N.eqb e NL)
          || has_triple ((d :: e :: t) ++ w)) in H.
  apply orb_false_iff in H. destruct H as [H1 H2].
  change (has_triple (c :: d :: e :: t))
    with ((N.eqb c NL && N.eqb d NL && N.eqb e NL) || has_triple (d :: e :: t)).
  rewrite H1, IH; auto.
Qed.

Lemma tidy_run k t : tidy (repeat NL k ++ t) = tidy t.
Proof. induction k as [|k IH]; [reflexivity|]. simpl. exact IH. Qed.

Lemma tidy_suffix a t : tidy (a ++ t) = true -> tidy t = true.
Proof.
  induction a as [|c a IH]; [auto|]. simpl.
  rewrite andb_true_iff. intros [_ H]. auto.
Qed.

Lemma tidy_spec t :
  tidy t = true ->
  forall a c b, t = a ++ c :: NL :: b -> is_space c = true -> c = NL.
Proof.
  intros T a c b E S. subst t. apply tidy_suffix in T. simpl in T.
  rewrite S in T. simpl in T. rewrite orb_false_r in T.
  apply andb_true_iff in T. destruct T as [T _]. apply N.eqb_eq, T.
Qed.

(** A tidy text cut after a character that is no whitespace, and closed by
    a line feed, is tidy. *)
Lemma tidy_rstrip_NL t : tidy t = true -> tidy (rstrip t ++ [NL]) = true.
Proof.
  destruct (rstrip_split t) as [w [E _]].
  pose proof (rstrip_last t) as L. revert L E.
  generalize (rstrip t) as r. intros r L E T. rewrite E in T. clear E.
  induction r as [|c r IH]; [reflexivity|].
  change ((c :: r) ++ w) with (c :: (r ++ w)) in T. simpl in T.
  apply andb_true_iff in T. destruct T as [Tc T].
  change ((c :: r) ++ [NL]) with (c :: (r ++ [NL])). simpl.
  rewrite IH; auto.
  - rewrite andb_true_r. destruct r as [|d r].
    + rewrite (L [] c eq_refl). reflexivity.
    + exact Tc.
  - intros a x Hx. apply (L (c :: a) x). rewrite Hx. reflexivity.
Qed.

Lemma has_triple_rstrip_NL t :
  has_triple t = false -> has_triple (rstrip t ++ [NL]) = false.
Proof.
  destruct (rstrip_split t) as [w [E _]].
  pose proof (rstrip_last t) as L. intros H. rewrite E in H.
  apply has_triple_prefix in H. revert L H.
  generalize (rstrip t) as r. clear. intros r L H.
  induction r as [|c r IH]; [reflexivity|].
  assert (L' : forall a x, r = a ++ [x] -> is_space x = false).
  { intros a x Hx. apply (L (c :: a) x). rewrite Hx. reflexivity. }
  change ((c :: r) ++ [NL]) with (c :: (r ++ [NL])).
  destruct r as [|d [|e r]].
  - reflexivity.
  - simpl. rewrite orb_false_r.
    assert (D : is_space d = false) by (apply (L' [] d); reflexivity).
    destruct (N.eqb_spec d NL) as [->|]; [discriminate D|].
    rewrite andb_false_r. reflexivity.
  - change (has_triple (c :: ((d :: e :: r) ++ [NL])))
      with ((N.eqb c NL && N.eqb d NL && N.eqb e NL)
            || has_triple ((d :: e :: r) ++ [NL])).
    change (has_triple (c :: d :: e :: r))
      with ((N.eqb c NL && N.eqb d NL && N.eqb e NL)
            || has_triple (d :: e :: r)) in H.
    apply orb_false_iff in H. destruct H as [H1 H2].
    rewrite H1, IH; auto.
Qed.

(** ** [RE_MULTI_BLANK.sub] *)

Section Collapse.

Variable isalnum : char -> bool.

Local Notation "'collapse' t" :=
  (re_sub isalnum RE_MULTI_BLANK [NL; NL] t) (at level 10, t at level 9).

Lemma multi_blank_none prev s :
  match s with
  | a :: b :: c :: _ => N.eqb a NL && N.eqb b NL && N.eqb c NL
  | _ => false
  end = false ->
  match_here isalnum RE_MULTI_BLANK prev s = None.
Proof.
  intros H. unfold match_here.
  destruct (run isalnum RE_MULTI_BLANK (prev, s)) as [|[q r] l] eqn:E;
    [reflexivity|].
  exfalso. assert (I : In (q, r) (run isalnum RE_MULTI_BLANK (prev, s))).
  { rewrite E. left. reflexivity. }
  change (In (q, r) (rep 3 (is_chr NL) prev s)) in I.
  apply rep_sound in I. destruct I as [a [-> [F L]]].
  destruct a as [|x [|y [|z a]]]; simpl in L; try lia.
  simpl in F, H. unfold is_chr in F.
  rewrite !andb_true_iff in F. destruct F as [Fx [Fy [Fz _]]].
  rewrite Fx, Fy, Fz in H. discriminate H.
Qed.

Lemma collapse_from prev k t :
  sub_from isalnum RE_MULTI_BLANK [NL; NL] prev k t
  = sub_from isalnum RE_MULTI_BLANK [NL; NL] None k t.
Proof. apply sub_from_context_free. reflexivity. Qed.

Lemma collapse_nil : collapse [] = [].
Proof. reflexivity. Qed.

Lemma collapse_char c t :
  N.eqb c NL = false -> collapse (c :: t) = c :: collapse t.
Proof.
  intros C. unfold re_sub. rewrite sub_from_nomatch.
  - rewrite collapse_from. reflexivity.
  - apply multi_blank_none. destruct t as [|b [|d t]]; auto.
    rewrite C. reflexivity.
Qed.

Lemma collapse_NL t :
  match t with
  | b :: c :: _ => N.eqb b NL && N.eqb c NL
  | _ => false
  end = false ->
  collapse (NL :: t) = NL :: collapse t.
Proof.
  intros H. unfold re_sub. rewrite sub_from_nomatch.
  - rewrite collapse_from. reflexivity.
  - apply multi_blank_none. destruct t as [|b [|d t]]; auto.
Qed.

(** A run of line feeds that ends a text or meets another character
    is cut down to two. *)
Lemma collapse_run k t :
  starts_nl t = false ->
  collapse (repeat NL k ++ t) = repeat NL (Nat.min k 2) ++ collapse t.
Proof.
  intros T. destruct k as [|[|[|k]]].
  - reflexivity.
  - change (collapse (NL :: t) = NL :: collapse t). apply collapse_NL.
    destruct t as [|b [|c t]]; auto. simpl in T. rewrite T. reflexivity.
  - change (collapse (NL :: NL :: t) = NL :: NL :: collapse t).
    rewrite collapse_NL.
    + rewrite collapse_NL; [reflexivity|].
      destruct t as [|b [|c t]]; auto. simpl in T. rewrite T. reflexivity.
    + destruct t as [|b t]; auto.
  - unfold re_sub.
    change (repeat NL (S (S (S k))) ++ t)
      with (NL :: (repeat NL (S (S k)) ++ t)).
    destruct (sub_from_match isalnum RE_MULTI_BLANK [NL; NL] None NL
                (repeat NL (S (S k))) t) as [q E].
    + unfold match_here.
      change (run isalnum RE_MULTI_BLANK
                (None, NL :: repeat NL (S (S k)) ++ t))
        with (rep 3 (is_chr NL) None (repeat NL (S (S (S k))) ++ t)).
      destruct (rep_hd 3 (is_chr NL) None (repeat NL (S (S (S k)))) t)
        as [q [rest E]].
      * clear. induction k as [|k IH]; [reflexivity | exact IH].
      * simpl. lia.
      * destruct t as [|c t]; [exact I | exact T].
      * rewrite E. f_equal.
        rewrite !length_cons, !length_app. lia.
    + rewrite E, collapse_from. reflexivity.
Qed.

Lemma collapse_hd t : hd_error (collapse t) = hd_error t.
Proof.
  destruct t as [|c t]; [reflexivity|].
  destruct (N.eqb c NL) eqn:C.
  - apply N.eqb_eq in C. subst c.
    destruct (nl_run_split t) as [k [t' [-> T]]].
    change (NL :: repeat NL k ++ t') with (repeat NL (S k) ++ t').
    rewrite collapse_run by exact T. destruct k; reflexivity.
  - rewrite collapse_char by exact C. reflexivity.
Qed.

Lemma collapse_starts_nl t : starts_nl (collapse t) = starts_nl t.
Proof.
  pose proof (collapse_hd t) as H.
  destruct (collapse t), t; simpl in *; congruence.
Qed.

Lemma collapse_line_goes_on t : line_goes_on (collapse t) = line_goes_on t.
Proof.
  pose proof (collapse_hd t) as H.
  destruct (collapse t), t; simpl in *; congruence.
Qed.

Lemma collapse_no_triple (t : list N) : has_triple (collapse t) = false.
Proof.
  induction t as [| c t C IH | k t K T IH] using nl_runs_ind.
  - reflexivity.
  - rewrite collapse_char, has_triple_char; assumption.
  - rewrite collapse_run, has_triple_run, IH by
      (assumption || (rewrite collapse_starts_nl; assumption)).
    destruct k as [|[|[|k]]]; reflexivity.
Qed.

Lemma collapse_tidy (t : list N) : tidy t = true -> tidy (collapse t) = true.
Proof.
  induction t as [| c t C IH | k t K T IH] using nl_runs_ind.
  - reflexivity.
  - rewrite collapse_char by assumption. simpl.
    rewrite collapse_line_goes_on, !andb_true_iff. intuition.
  - rewrite collapse_run, !tidy_run by assumption. exact IH.
Qed.

Lemma collapse_forall (P : char -> bool) t :
  P NL = true -> forallb P t = true -> forallb P (collapse t) = true.
Proof.
  intros H F. apply sub_from_forall; [|exact F]. simpl. rewrite H. reflexivity.
Qed.

Lemma collapse_only_nl t : only_nl t = true -> only_nl (collapse t) = true.
Proof. apply collapse_forall. reflexivity. Qed.

Lemma collapse_fixed (t : list N) : has_triple t = false -> collapse t = t.
Proof.
  induction t as [| c t C IH | k t K T IH] using nl_runs_ind.
  - reflexivity.
  - rewrite has_triple_char, collapse_char by assumption.
    intros H. rewrite IH; auto.
  - rewrite has_triple_run, collapse_run by assumption.
    intros H. apply orb_false_iff in H. destruct H as [H1 H2].
    apply Nat.leb_gt in H1. rewrite IH by exact H2.
    rewrite Nat.min_l by lia. reflexivity.
Qed.

Lemma collapse_app (a : list N) t :
  ends_nl a = false -> collapse (a ++ t) = collapse a ++ collapse t.
Proof.
  induction a as [| c a C IH | k a K T IH] using nl_runs_ind; intros E.
  - reflexivity.
  - change ((c :: a) ++ t) with (c :: (a ++ t)).
    rewrite !collapse_char by assumption. simpl. f_equal. apply IH.
    destruct a as [|d a] using rev_ind; [reflexivity|].
    unfold ends_nl in *. change (c :: a ++ [d]) with ((c :: a) ++ [d]) in E.
    rewrite rev_app_distr in *. exact E.
  - destruct a as [|d a] using rev_ind.
    + exfalso. rewrite app_nil_r in E. unfold ends_nl in E.
      rewrite rev_repeat in E. destruct k; [lia | discriminate E].
    + clear IHa. rewrite <- app_assoc, !collapse_run.
      * rewrite IH, app_assoc; [reflexivity|].
        unfold ends_nl in *. rewrite app_assoc, rev_app_distr in E.
        rewrite rev_app_distr. exact E.
      * exact T.
      * destruct a; exact T.
Qed.

End Collapse.

(** ** The lines between the loop and the final trim *)

Lemma one_line_only_nl l : one_line l = true -> only_nl l = true.
Proof.
  unfold one_line, only_nl. rewrite !forallb_forall.
  intros H c I. rewrite (H c I). reflexivity.
Qed.

Lemma one_line_cons c l :
  one_line (c :: l) = true -> is_linebreak c = false /\ one_line l = true.
Proof.
  unfold one_line. simpl. rewrite andb_true_iff, negb_true_iff. auto.
Qed.

Lemma rstrip_fixed_cons c l :
  rstrip (c :: l) = c :: l ->
  rstrip l = l /\ (l = [] -> is_space c = false).
Proof.
  rewrite rstrip_cons. destruct l as [|d l].
  - simpl. destruct (is_space c); [discriminate | auto].
  - destruct (forallb is_space (d :: l)).
    + destruct (is_space c); discriminate.
    + intros H. inversion H as [E]. rewrite E. split; [exact E | discriminate].
Qed.

Lemma tidy_line l t :
  one_line l = true -> rstrip l = l -> tidy t = true ->
  (l <> [] -> t = [] \/ starts_nl t = true \/ line_goes_on t = true) ->
  tidy (l ++ t) = true.
Proof.
  intros O R T. induction l as [|c l IH]; intros _; [exact T|].
  apply one_line_cons in O. destruct O as [Lc O].
  apply rstrip_fixed_cons in R. destruct R as [R Sc].
  change ((c :: l) ++ t) with (c :: (l ++ t)). simpl.
  rewrite IH; auto.
  - rewrite andb_true_r. destruct l as [|d l].
    + rewrite (Sc eq_refl). reflexivity.
    + apply one_line_cons in O. destruct O as [Ld _]. simpl.
      rewrite (not_linebreak_not_NL d Ld), orb_true_r. reflexivity.
  - intros _. destruct t as [|x t]; auto. right. simpl.
    destruct (N.eqb x NL); auto.
Qed.

Lemma join_forall (P : char -> bool) sep ls :
  forallb P sep = true -> Forall (fun l => forallb P l = true) ls ->
  forallb P (join sep ls) = true.
Proof.
  intros S F. induction F as [|l ls Hl F IH]; [reflexivity|].
  destruct ls as [|m ls]; [exact Hl|].
  rewrite join_cons by discriminate.
  rewrite !forallb_app, Hl, S, IH. reflexivity.
Qed.

Lemma join_tidy ls :
  Forall (fun l => one_line l = true /\ rstrip l = l) ls ->
  tidy (join [NL] ls) = true.
Proof.
  intros F. induction F as [|l ls [O R] F IH]; [reflexivity|].
  destruct ls as [|m ls].
  - simpl. rewrite <- (app_nil_r l). apply tidy_line; auto.
  - rewrite join_cons by discriminate.
    apply tidy_line; auto.
Qed.

Lemma join_only_nl ls :
  Forall (fun l => one_line l = true /\ rstrip l = l) ls ->
  only_nl (join [NL] ls) = true.
Proof.
  intros F. apply join_forall; [reflexivity|].
  eapply Forall_impl; [|exact F].
  intros l [O _]. apply one_line_only_nl, O.
Qed.

Section Normalizer.

Variable isalnum : char -> bool.

Lemma clean_line_one_line l :
  one_line l = true -> one_line (clean_line isalnum l) = true.
Proof.
  intros H. unfold clean_line, one_line.
  apply rstrip_forall. unfold re_sub.
  apply sub_from_forall; [reflexivity|].
  apply sub_from_forall; [reflexivity | exact H].
Qed.

Lemma clean_line_rstrip l :
  rstrip (clean_line isalnum l) = clean_line isalnum l.
Proof. apply rstrip_idem. Qed.

Lemma clean_lines_shape ls :
  Forall (fun l => one_line l = true) ls ->
  Forall (fun l => one_line l = true /\ rstrip l = l)
         (clean_lines isalnum ls).
Proof.
  intros F. induction F as [|l ls Hl F IH]; [constructor|].
  simpl. destruct (re_match isalnum RE_FENCED_DIV_LINE l); [exact IH|].
  constructor; [|exact IH].
  split; [apply clean_line_one_line, Hl | apply clean_line_rstrip].
Qed.


Lemma collapsed_only_nl md : only_nl (collapsed isalnum md) = true.
Proof.
  apply collapse_only_nl, join_only_nl, clean_lines_shape,
    splitlines_one_line.
Qed.

Lemma collapsed_tidy md : tidy (collapsed isalnum md) = true.
Proof.
  apply collapse_tidy, join_tidy, clean_lines_shape, splitlines_one_line.
Qed.

Lemma collapsed_no_triple md : has_triple (collapsed isalnum md) = false.
Proof. apply collapse_no_triple. Qed.

(** The second [splitlines]/[join] pass changes nothing but a final
    line feed, which [strip] removes anyway. *)
Lemma clean_markdown_normal md :
  clean_markdown isalnum md = strip (collapsed isalnum md) ++ [NL].
Proof.
  unfold clean_markdown. fold (collapsed isalnum md). f_equal.
  assert (E : List.map blank_line (splitlines (collapsed isalnum md))
              = splitlines (collapsed isalnum md)).
  { rewrite <- (map_id (splitlines (collapsed isalnum md))) at 2.
    apply map_ext_Forall.
    eapply Forall_impl;
      [| apply splitlines_tidy;
         [apply collapsed_only_nl | apply collapsed_tidy]].
    intros l. apply blank_line_fixed. }
  rewrite E, join_splitlines by apply collapsed_only_nl.
  apply strip_chomp.
Qed.

End Normalizer.

(** ** The patterns of the line loop *)

Section Patterns.

Variable isalnum : char -> bool.

Lemma run_seq_intro a b k k1 k2 :
  In k1 (run isalnum a k) -> In k2 (run isalnum b k1) ->
  In k2 (run isalnum (a ;; b)%re k).
Proof. intros H1 H2. simpl. apply in_flat_map. eauto. Qed.

Lemma run_seq_elim a b k k2 :
  In k2 (run isalnum (a ;; b)%re k) ->
  exists k1, In k1 (run isalnum a k) /\ In k2 (run isalnum b k1).
Proof. simpl. apply in_flat_map. Qed.

Lemma run_chr_intro (p : char -> bool) q c s :
  p c = true -> In (Some c, s) (run isalnum (Chr p) (q, c :: s)).
Proof. intros H. simpl. rewrite H. left. reflexivity. Qed.

Lemma run_chr_elim (p : char -> bool) q s q' r :
  In (q', r) (run isalnum (Chr p) (q, s)) ->
  exists c, s = c :: r /\ p c = true.
Proof.
  simpl. destruct s as [|c s]; [intros []|].
  destruct (p c) eqn:C; [|intros []].
  intros [E|[]]. inversion E; subst. eauto.
Qed.

Lemma run_rep_intro n (p : char -> bool) q a r :
  forallb p a = true -> n <= length a ->
  exists q', In (q', r) (run isalnum (Repeat n p) (q, a ++ r)).
Proof. intros F L. simpl. apply rep_complete; assumption. Qed.

Lemma run_rep_elim n (p : char -> bool) q s q' r :
  In (q', r) (run isalnum (Repeat n p) (q, s)) ->
  exists a, s = a ++ r /\ forallb p a = true /\ n <= length a.
Proof. simpl. apply rep_sound. Qed.

Lemma run_eos_elim q s q' r :
  In (q', r) (run isalnum Eos (q, s)) -> r = s /\ (s = [] \/ s = [NL]).
Proof.
  simpl. destruct s as [|c [|d s]].
  - intros [E|[]]. inversion E. auto.
  - destruct (N.eqb_spec c NL) as [->|]; [|intros []].
    intros [E|[]]. inversion E. auto.
  - intros [].
Qed.

Lemma match_here_some r prev s n :
  match_here isalnum r prev s = Some n ->
  exists q rest, In (q, rest) (run isalnum r (prev, s))
                 /\ n = length s - length rest.
Proof.
  unfold match_here.
  destruct (run isalnum r (prev, s)) as [|[q rest] l]; [discriminate|].
  intros E. inversion E. exists q, rest. split; [left|]; reflexivity.
Qed.

Lemma match_here_in r prev s k :
  In k (run isalnum r (prev, s)) ->
  exists n, match_here isalnum r prev s = Some n.
Proof.
  unfold match_here.
  destruct (run isalnum r (prev, s)) as [|[q rest] l]; [intros []|eauto].
Qed.

Lemma re_match_intro r s k :
  In k (run isalnum r (None, s)) -> re_match isalnum r s = true.
Proof.
  intros H. apply match_here_in in H. destruct H as [n E].
  unfold re_match. rewrite E. reflexivity.
Qed.

Lemma run_min_len r :
  forall k q rest,
    In (q, rest) (run isalnum r k) ->
    length rest + min_len r <= length (snd k).
Proof.
  induction r as [p | n p | a IHa b IHb | a IHa | | |];
    intros [q0 s] q rest I.
  - apply run_chr_elim in I. destruct I as [c [-> _]]. simpl. lia.
  - apply run_rep_elim in I. destruct I as [a [-> [_ L]]].
    simpl. rewrite length_app. lia.
  - apply run_seq_elim in I. destruct I as [[q1 s1] [I1 I2]].
    apply IHa in I1. apply IHb in I2. simpl in *. lia.
  - simpl in I. apply in_app_or in I. destruct I as [I | [E | []]].
    + apply IHa in I. simpl in *. lia.
    + inversion E. simpl. lia.
  - simpl in I. destruct q0; [destruct I|].
    destruct I as [E | []]. inversion E. simpl. lia.
  - apply run_eos_elim in I. destruct I as [-> _]. simpl. lia.
  - simpl in I.
    destruct (xorb (word_at isalnum q0) (word_at isalnum (hd_error s)));
      [|destruct I].
    destruct I as [E | []]. inversion E. simpl. lia.
Qed.

Lemma match_here_min_len r prev s n :
  match_here isalnum r prev s = Some n -> min_len r <= n.
Proof.
  intros M. apply match_here_some in M. destruct M as [q [rest [I ->]]].
  apply run_min_len in I. simpl in I. lia.
Qed.

(** The three patterns used with [sub] take at least one character. *)
Lemma sub_patterns_never_empty r prev s :
  r = RE_ATTR_TRAILING \/ r = RE_HTML_TAG \/ r = RE_MULTI_BLANK ->
  match_here isalnum r prev s <> Some 0.
Proof.
  intros R M. apply match_here_min_len in M.
  destruct R as [-> | [-> | ->]]; simpl in M; lia.
Qed.

(** *** RE_ATTR_TRAILING *)

Lemma attr_sound prev s q r :
  In (q, r) (run isalnum RE_ATTR_TRAILING (prev, s)) ->
  exists ws b ws',
    s = ws ++ LBRACE :: b ++ RBRACE :: ws' ++ r
    /\ forallb is_space ws = true
    /\ forallb (not_chr RBRACE) b = true
    /\ forallb is_space ws' = true
    /\ (r = [] \/ r = [NL]).
Proof.
  unfold RE_ATTR_TRAILING. intros H.
  apply run_seq_elim in H. destruct H as [[q1 s1] [H1 H]].
  apply run_rep_elim in H1. destruct H1 as [ws [-> [Fws _]]].
  apply run_seq_elim in H. destruct H as [[q2 s2] [H2 H]].
  apply run_chr_elim in H2. destruct H2 as [c2 [-> C2]].
  apply run_seq_elim in H. destruct H as [[q3 s3] [H3 H]].
  apply run_rep_elim in H3. destruct H3 as [b [-> [Fb _]]].
  apply run_seq_elim in H. destruct H as [[q4 s4] [H4 H]].
  apply run_chr_elim in H4. destruct H4 as [c4 [-> C4]].
  apply run_seq_elim in H. destruct H as [[q5 s5] [H5 H]].
  apply run_rep_elim in H5. destruct H5 as [ws' [-> [Fws' _]]].
  apply run_eos_elim in H. destruct H as [-> R].
  apply N.eqb_eq in C2, C4. subst c2 c4.
  exists ws, b, ws'. auto.
Qed.

Lemma attr_complete prev ws b ws' :
  forallb is_space ws = true ->
  forallb (not_chr RBRACE) b = true ->
  forallb is_space ws' = true ->
  exists q,
    In (q, []) (run isalnum RE_ATTR_TRAILING
                  (prev, ws ++ LBRACE :: b ++ RBRACE :: ws')).
Proof.
  intros Fws Fb Fws'. unfold RE_ATTR_TRAILING.
  destruct (run_rep_intro 0 is_space prev ws
              (LBRACE :: b ++ RBRACE :: ws') Fws (Nat.le_0_l _)) as [q1 H1].
  destruct (run_rep_intro 0 (not_chr RBRACE) (Some LBRACE) b
              (RBRACE :: ws') Fb (Nat.le_0_l _)) as [q3 H3].
  destruct (run_rep_intro 0 is_space (Some RBRACE) ws' [] Fws'
              (Nat.le_0_l _)) as [q5 H5].
  rewrite app_nil_r in H5.
  exists q5.
  eapply run_seq_intro; [exact H1|].
  eapply run_seq_intro; [apply run_chr_intro; reflexivity|].
  eapply run_seq_intro; [exact H3|].
  eapply run_seq_intro; [apply run_chr_intro; reflexivity|].
  eapply run_seq_intro; [exact H5|].
  simpl. auto.
Qed.

(** On a text that does not end with a line feed, a match of
    RE_ATTR_TRAILING runs to the end of the text. *)
Lemma attr_match_full prev ws b ws' :
  forallb is_space ws = true ->
  forallb (not_chr RBRACE) b = true ->
  forallb is_space ws' = true ->
  (forall x, ws ++ LBRACE :: b ++ RBRACE :: ws' <> x ++ [NL]) ->
  match_here isalnum RE_ATTR_TRAILING prev
    (ws ++ LBRACE :: b ++ RBRACE :: ws')
  = Some (length (ws ++ LBRACE :: b ++ RBRACE :: ws')).
Proof.
  intros Fws Fb Fws' E.
  destruct (attr_complete prev ws b ws' Fws Fb Fws') as [q0 H0].
  apply match_here_in in H0. destruct H0 as [n Hn]. rewrite Hn.
  apply match_here_some in Hn. destruct Hn as [q [rest [H ->]]].
  apply attr_sound in H.
  destruct H as [ws1 [b1 [ws1' [E1 [_ [_ [_ [->| ->]]]]]]]].
  - simpl. rewrite Nat.sub_0_r. reflexivity.
  - exfalso. apply (E (ws1 ++ LBRACE :: b1 ++ RBRACE :: ws1')).
    rewrite E1 at 1. rewrite <- !app_assoc. simpl.
    rewrite <- !app_assoc. reflexivity.
Qed.

Lemma attr_sub_from prev k s :
  sub_from isalnum RE_ATTR_TRAILING [] prev k s
  = sub_from isalnum RE_ATTR_TRAILING [] None k s.
Proof. apply sub_from_context_free. reflexivity. Qed.

(** A text that is one match is removed whole. *)
Lemma attr_sub_all ws b ws' :
  forallb is_space ws = true ->
  forallb (not_chr RBRACE) b = true ->
  forallb is_space ws' = true ->
  (forall x, ws ++ LBRACE :: b ++ RBRACE :: ws' <> x ++ [NL]) ->
  re_sub isalnum RE_ATTR_TRAILING []
    (ws ++ LBRACE :: b ++ RBRACE :: ws') = [].
Proof.
  intros Fws Fb Fws' E.
  pose proof (attr_match_full None ws b ws' Fws Fb Fws' E) as M.
  unfold re_sub. revert M.
  destruct (ws ++ LBRACE :: b ++ RBRACE :: ws') as [|c l] eqn:L;
    [destruct ws; discriminate|].
  intros M. rewrite <- (app_nil_r l) in M |- *.
  rewrite app_nil_r in M at 2. simpl length in M.
  destruct (sub_from_match isalnum RE_ATTR_TRAILING [] None c l [] M)
    as [q ->].
  reflexivity.
Qed.

End Patterns.

(** ** Container and attribute lines *)


Lemma container_line_one_line l : container_line l -> one_line l = true.
Proof.
  assert (C : forall n, one_line (repeat COLON n) = true).
  { induction n as [|n IH]; [reflexivity | exact IH]. }
  intros [n _ | n gap body _ _ G B]; [apply C|].
  unfold one_line in *. rewrite !forallb_app. fold (one_line (repeat COLON n)).
  rewrite C, G. simpl. rewrite forallb_app, B. reflexivity.
Qed.

Lemma container_line_not_nil l : container_line l -> l <> [].
Proof.
  intros [n H | n gap body H _ _ _]; destruct n; try lia; discriminate.
Qed.

Lemma one_line_last_NL l x : one_line l = true -> l <> x ++ [NL].
Proof.
  intros O E. subst l. unfold one_line in O.
  rewrite forallb_app in O. simpl in O. rewrite andb_false_r in O.
  discriminate O.
Qed.

Section Fenced.

Variable isalnum : char -> bool.

Lemma run_opt_skip a k : In k (run isalnum (Opt a) k).
Proof. simpl. apply in_or_app. right. left. reflexivity. Qed.

Lemma run_opt_take a k k' :
  In k' (run isalnum a k) -> In k' (run isalnum (Opt a) k).
Proof. intros H. simpl. apply in_or_app. left. exact H. Qed.

Lemma colons_forall n : forallb (is_chr COLON) (repeat COLON n) = true.
Proof. induction n as [|n IH]; [reflexivity | exact IH]. Qed.

Lemma one_line_dot l : one_line l = true -> forallb is_dot l = true.
Proof.
  unfold one_line. rewrite !forallb_forall. intros H c I.
  specialize (H c I). apply negb_true_iff in H.
  unfold is_dot, not_chr. rewrite (not_linebreak_not_NL c H). reflexivity.
Qed.

(** The tail of RE_FENCED_DIV_LINE after the colons. *)
Lemma fenced_tail q gap grp :
  forallb is_space gap = true ->
  (grp = [] \/ exists body, grp = LBRACE :: body ++ [RBRACE]
                            /\ forallb is_dot body = true) ->
  exists q',
    In (q', [])
       (run isalnum
          (Repeat 0 is_space ;;
           Opt (Chr (is_chr LBRACE) ;; Repeat 0 is_dot ;;
                Chr (is_chr RBRACE)) ;;
           Repeat 0 is_space ;; Eos)%re (q, gap ++ grp)).
Proof.
  intros G H.
  destruct (run_rep_intro isalnum 0 is_space q gap grp G (Nat.le_0_l _))
    as [q1 H1].
  destruct H as [-> | [body [-> B]]].
  - exists q1. eapply run_seq_intro; [exact H1|].
    eapply run_seq_intro; [apply run_opt_skip|].
    eapply run_seq_intro; [simpl; left; reflexivity|].
    simpl. auto.
  - destruct (run_rep_intro isalnum 0 is_dot (Some LBRACE) body [RBRACE] B
                (Nat.le_0_l _)) as [q2 H2].
    exists (Some RBRACE). eapply run_seq_intro; [exact H1|].
    eapply run_seq_intro.
    + apply run_opt_take.
      eapply run_seq_intro; [apply run_chr_intro; reflexivity|].
      eapply run_seq_intro; [exact H2|].
      apply run_chr_intro. reflexivity.
    + simpl. auto.
Qed.

(** RE_FENCED_DIV_LINE matches every container line. *)
Lemma fenced_container l :
  container_line l -> re_match isalnum RE_FENCED_DIV_LINE l = true.
Proof.
  intros C.
  assert (H : exists n gap grp,
             l = COLON :: COLON :: repeat COLON (S n) ++ gap ++ grp
             /\ forallb is_space gap = true
             /\ (grp = [] \/ exists body, grp = LBRACE :: body ++ [RBRACE]
                                          /\ forallb is_dot body = true)).
  { destruct C as [n H | n gap body H G _ B].
    - exists (n - 3), [], []. replace n with (S (S (S (n - 3)))) at 1 by lia.
      simpl. rewrite app_nil_r. auto.
    - exists (n - 3), gap, (LBRACE :: body ++ [RBRACE]).
      replace n with (S (S (S (n - 3)))) at 1 by lia.
      split; [reflexivity|]. split; [exact G|]. right.
      exists body. split; [reflexivity | apply one_line_dot, B]. }
  destruct H as [n [gap [grp [-> [G T]]]]].
  destruct (run_rep_intro isalnum 1 (is_chr COLON) (Some COLON)
              (repeat COLON (S n)) (gap ++ grp) (colons_forall (S n)))
    as [q1 H1]; [simpl; lia|].
  destruct (fenced_tail q1 gap grp G T) as [q2 H2].
  apply (re_match_intro isalnum RE_FENCED_DIV_LINE _ (q2, [])).
  unfold RE_FENCED_DIV_LINE.
  eapply run_seq_intro; [simpl; left; reflexivity|].
  eapply run_seq_intro; [simpl; left; reflexivity|].
  eapply run_seq_intro; [apply run_chr_intro; reflexivity|].
  eapply run_seq_intro; [apply run_chr_intro; reflexivity|].
  eapply run_seq_intro; [exact H1|].
  exact H2.
Qed.

Lemma clean_lines_app pre post :
  clean_lines isalnum (pre ++ post)
  = clean_lines isalnum pre ++ clean_lines isalnum post.
Proof.
  induction pre as [|l pre IH]; [reflexivity|]. simpl.
  destruct (re_match isalnum RE_FENCED_DIV_LINE l); rewrite IH; reflexivity.
Qed.

Lemma clean_lines_container pre l post :
  container_line l ->
  clean_lines isalnum (pre ++ l :: post)
  = clean_lines isalnum pre ++ clean_lines isalnum post.
Proof.
  intros C. rewrite clean_lines_app. simpl.
  rewrite (fenced_container l C). reflexivity.
Qed.

End Fenced.

(** ** What [clean_markdown] returns *)

Section Output.

Variable isalnum : char -> bool.

Lemma strip_tidy_NL t : tidy t = true -> tidy (strip t ++ [NL]) = true.
Proof.
  intros T. unfold strip. apply tidy_rstrip_NL.
  destruct (lstrip_split t) as [w [E _]]. rewrite E in T.
  apply tidy_suffix in T. exact T.
Qed.

Lemma strip_no_triple t : has_triple t = false -> has_triple (strip t) = false.
Proof.
  intros H. unfold strip.
  destruct (lstrip_split t) as [w [E _]]. rewrite E in H.
  apply has_triple_suffix in H.
  destruct (rstrip_split (lstrip t)) as [w' [E' _]]. rewrite E' in H.
  apply has_triple_prefix in H. exact H.
Qed.

Lemma strip_no_triple_NL t :
  has_triple t = false -> has_triple (strip t ++ [NL]) = false.
Proof.
  intros H. unfold strip. apply has_triple_rstrip_NL.
  destruct (lstrip_split t) as [w [E _]]. rewrite E in H.
  apply has_triple_suffix in H. exact H.
Qed.

Lemma clean_markdown_tidy md : tidy (clean_markdown isalnum md) = true.
Proof.
  rewrite clean_markdown_normal. apply strip_tidy_NL, collapsed_tidy.
Qed.

Lemma clean_markdown_no_triple md :
  has_triple (clean_markdown isalnum md) = false.
Proof.
  rewrite clean_markdown_normal. apply strip_no_triple_NL, collapsed_no_triple.
Qed.

Lemma clean_markdown_only_nl md : only_nl (clean_markdown isalnum md) = true.
Proof.
  rewrite clean_markdown_normal. unfold only_nl. rewrite forallb_app.
  fold (only_nl (strip (collapsed isalnum md))).
  unfold only_nl. rewrite strip_forall; [reflexivity|].
  apply collapsed_only_nl.
Qed.

Lemma clean_markdown_lines a b :
  clean_lines isalnum (splitlines a) = clean_lines isalnum (splitlines b) ->
  clean_markdown isalnum a = clean_markdown isalnum b.
Proof. intros E. unfold clean_markdown. rewrite E. reflexivity. Qed.

Lemma html_sub_nil : re_sub isalnum RE_HTML_TAG [] [] = [].
Proof. reflexivity. Qed.

Lemma clean_lines_fixed ls :
  Forall (fun l => re_match isalnum RE_FENCED_DIV_LINE l = false
                   /\ re_sub isalnum RE_HTML_TAG []
                        (re_sub isalnum RE_ATTR_TRAILING [] l) = l
                   /\ rstrip l = l) ls ->
  clean_lines isalnum ls = ls.
Proof.
  intros F. induction F as [|l ls [Hf [Hs Hr]] F IH]; [reflexivity|].
  simpl. rewrite Hf, IH. unfold clean_line. rewrite Hs, Hr. reflexivity.
Qed.

Lemma clean_lines_markup ls :
  Forall (fun l => container_line l \/ attribute_line l) ls ->
  Forall (fun l => forallb (is_chr NL) l = true) (clean_lines isalnum ls).
Proof.
  intros F. induction F as [|l ls H F IH]; [constructor|].
  simpl. destruct H as [C | A].
  - rewrite (fenced_container isalnum l C). exact IH.
  - destruct (re_match isalnum RE_FENCED_DIV_LINE l); [exact IH|].
    constructor; [|exact IH].
    destruct A as [ws body ws' Fws Fb Fws' O]. unfold clean_line.
    rewrite attr_sub_all; auto.
    intros x. apply one_line_last_NL, O.
Qed.

Lemma count_RBRACE_zero (P : char -> bool) l :
  P RBRACE = false -> forallb P l = true ->
  count_occ N.eq_dec l RBRACE = 0.
Proof.
  intros R F. induction l as [|c l IH]; [reflexivity|].
  simpl in F. apply andb_true_iff in F. destruct F as [Pc F].
  simpl. destruct (N.eq_dec c RBRACE) as [->|]; [congruence | auto].
Qed.

(** No match of RE_ATTR_TRAILING starts before an inner closing brace. *)
Lemma attr_no_match prev u y :
  forallb (not_chr RBRACE) y = true ->
  match_here isalnum RE_ATTR_TRAILING prev
    (u ++ RBRACE :: LBRACE :: y ++ [RBRACE]) = None.
Proof.
  intros Fy.
  destruct (match_here isalnum RE_ATTR_TRAILING prev
              (u ++ RBRACE :: LBRACE :: y ++ [RBRACE])) as [n|] eqn:M;
    [|reflexivity].
  exfalso. apply match_here_some in M. destruct M as [q [rest [H _]]].
  apply attr_sound in H.
  destruct H as [ws [b [ws' [E [Fws [Fb [Fws' R]]]]]]].
  apply (f_equal (fun l => count_occ N.eq_dec l RBRACE)) in E.
  rewrite !count_occ_app in E. simpl in E.
  rewrite !count_occ_app in E. simpl in E.
  rewrite (count_RBRACE_zero is_space ws) in E by auto.
  rewrite (count_RBRACE_zero (not_chr RBRACE) b) in E by auto.
  rewrite (count_RBRACE_zero (not_chr RBRACE) y) in E by auto.
  rewrite count_occ_app in E.
  rewrite (count_RBRACE_zero is_space ws') in E by auto.
  destruct R as [-> | ->]; simpl in E; lia.
Qed.

(** Of two adjacent brace groups at the end of a text, RE_ATTR_TRAILING
    removes the last one only. *)
Lemma attr_sub_last_group u y :
  forallb (not_chr RBRACE) y = true ->
  re_sub isalnum RE_ATTR_TRAILING []
    (u ++ RBRACE :: LBRACE :: y ++ [RBRACE]) = u ++ [RBRACE].
Proof.
  intros Fy. unfold re_sub. generalize (@None N) at 1. 
  induction u as [|c u IH]; intros prev.
  - simpl app. rewrite sub_from_nomatch
      by (apply (attr_no_match prev [] y Fy)).
    f_equal. rewrite attr_sub_from.
    apply (attr_sub_all isalnum [] y []); auto.
    intros x E. change (LBRACE :: y ++ [RBRACE])
      with ((LBRACE :: y) ++ [RBRACE]) in E.
    apply app_inj_tail in E. destruct E as [_ E]. discriminate E.
  - change ((c :: u) ++ RBRACE :: LBRACE :: y ++ [RBRACE])
      with (c :: (u ++ RBRACE :: LBRACE :: y ++ [RBRACE])).
    rewrite sub_from_nomatch
      by (apply (attr_no_match prev (c :: u) y Fy)).
    simpl. f_equal. apply IH.
Qed.

Lemma clean_markdown_markup md :
  Forall (fun l => container_line l \/ attribute_line l) (splitlines md) ->
  clean_markdown isalnum md = [NL].
Proof.
  intros F. rewrite clean_markdown_normal. unfold collapsed.
  rewrite strip_all_space; [reflexivity|].
  apply collapse_forall; [reflexivity|].
  assert (S : forall l, forallb (is_chr NL) l = true
                        -> forallb is_space l = true).
  { intros l. rewrite !forallb_forall. intros A c I.
    specialize (A c I). apply N.eqb_eq in A. subst c. reflexivity. }
  apply S, join_forall; [reflexivity|].
  apply clean_lines_markup, F.
Qed.

End Output.

Section NormalizerClaims.

Variable isalnum : char -> bool.

(** C4: the output of [clean_markdown] is a body followed by exactly one
    line feed: the body does not end with a line feed, nor with any other
    whitespace, so no blank line precedes the final line feed.  This holds
    for every input, the non-empty ones in particular. *)
Theorem clean_markdown_one_trailing_newline md :
  exists body,
    clean_markdown isalnum md = body ++ [NL]
    /\ (forall a c, body = a ++ [c] -> is_space c = false /\ c <> NL).
Proof.
  unfold clean_markdown.
  set (t := join [NL] _). exists (strip t). split; [reflexivity|].
  intros a c E. apply strip_last in E. split; [exact E|].
  intros ->. discriminate E.
Qed.

(** C8: the output of [clean_markdown] never holds three line feeds in a
    row, and none of its lines ends with whitespace: a whitespace character
    right before a line feed can only be the line feed of a blank line.
    The lines of the output are cut by line feeds only. *)
Theorem clean_markdown_no_blank_run_no_trailing_space md :
  (forall a b, clean_markdown isalnum md <> a ++ NL :: NL :: NL :: b)
  /\ Forall (fun l => rstrip l = l) (splitlines (clean_markdown isalnum md))
  /\ (forall a c b, clean_markdown isalnum md = a ++ c :: NL :: b ->
                    is_space c = true -> c = NL)
  /\ only_nl (clean_markdown isalnum md) = true.
Proof.
  split; [|split; [|split]].
  - apply has_triple_spec, clean_markdown_no_triple.
  - apply splitlines_tidy;
      [apply clean_markdown_only_nl | apply clean_markdown_tidy].
  - apply tidy_spec, clean_markdown_tidy.
  - apply clean_markdown_only_nl.
Qed.

(** C6: [RE_MULTI_BLANK.sub] turns a run of three or more line feeds, met
    anywhere in a text, into exactly two; [clean_markdown] returns the
    joined lines after this step, trimmed, so its output never holds three
    line feeds in a row: at most one blank line separates two blocks. *)
Theorem multi_blank_collapsed_to_two a n b :
  3 <= n -> ends_nl a = false -> starts_nl b = false ->
  re_sub isalnum RE_MULTI_BLANK [NL; NL] (a ++ repeat NL n ++ b)
  = re_sub isalnum RE_MULTI_BLANK [NL; NL] a
    ++ NL :: NL :: re_sub isalnum RE_MULTI_BLANK [NL; NL] b
  /\ (forall md,
        clean_markdown isalnum md
        = strip (re_sub isalnum RE_MULTI_BLANK [NL; NL]
                   (join [NL] (clean_lines isalnum (splitlines md))))
          ++ [NL])
  /\ (forall md x y, clean_markdown isalnum md <> x ++ NL :: NL :: NL :: y).
Proof.
  intros Hn Ha Hb. split; [|split].
  - rewrite collapse_app by exact Ha.
    rewrite collapse_run by exact Hb.
    rewrite Nat.min_r by lia. reflexivity.
  - intros md. apply clean_markdown_normal.
  - intros md. apply has_triple_spec, clean_markdown_no_triple.
Qed.


(** C5: a container line (three or more colons, optionally followed by a
    brace-delimited attribute group) is dropped by the line loop, and the
    output is the one the text without that line gives: the lines around
    it are treated as if it had never been there. *)
Theorem clean_markdown_drops_container_line l :
  container_line l ->
  (forall pre post,
      clean_lines isalnum (pre ++ l :: post)
      = clean_lines isalnum pre ++ clean_lines isalnum post)
  /\ (forall a b,
        clean_markdown isalnum (a ++ NL :: l ++ NL :: b)
        = clean_markdown isalnum (a ++ NL :: b))
  /\ (forall b, clean_markdown isalnum (l ++ NL :: b)
                = clean_markdown isalnum b)
  /\ (forall a, clean_markdown isalnum (a ++ NL :: l)
                = clean_markdown isalnum (a ++ [NL]))
  /\ clean_markdown isalnum l = [NL].
Proof.
  intros C. pose proof (container_line_one_line l C) as O.
  pose proof (container_line_not_nil l C) as NE.
  split; [|split; [|split; [|split]]].
  - intros pre post. apply clean_lines_container, C.
  - intros a b. apply clean_markdown_lines.
    rewrite (splitlines_app_NL a (l ++ NL :: b)), (splitlines_line l b O).
    rewrite clean_lines_container by exact C.
    rewrite (splitlines_app_NL a b), clean_lines_app. reflexivity.
  - intros b. apply clean_markdown_lines.
    rewrite (splitlines_line l b O).
    apply (clean_lines_container isalnum [] l (splitlines b) C).
  - intros a. apply clean_markdown_lines.
    rewrite (splitlines_app_NL a l), (splitlines_single l O NE).
    rewrite clean_lines_container by exact C. apply app_nil_r.
  - apply clean_markdown_markup.
    rewrite (splitlines_single l O NE). constructor; auto.
Qed.

Lemma one_line_no_triple t : one_line t = true -> has_triple t = false.
Proof.
  induction t as [|c t IH]; [reflexivity|]. intros O.
  apply one_line_cons in O. destruct O as [L O].
  rewrite has_triple_char by (apply not_linebreak_not_NL, L). auto.
Qed.

Lemma lstrip_snoc k c :
  is_space c = false -> lstrip (k ++ [c]) = lstrip k ++ [c].
Proof.
  intros C. induction k as [|d k IH]; simpl; [rewrite C; reflexivity|].
  destruct (is_space d); [exact IH | reflexivity].
Qed.

Lemma strip_snoc k c :
  is_space c = false -> strip (k ++ [c]) = lstrip k ++ [c].
Proof.
  intros C. unfold strip. rewrite lstrip_snoc by exact C.
  apply rstrip_fixed_snoc, C.
Qed.

(** C9, as amended: of two adjacent brace groups at the end of a line,
    RE_ATTR_TRAILING removes the last one only; when the line is no
    fenced-container line and what is left holds no tag, [clean_markdown]
    returns the line without its last group (and without leading
    whitespace), the first group still at its end. *)
Theorem trailing_attr_removes_last_group_only p x y :
  forallb (not_chr RBRACE) y = true ->
  one_line ((p ++ LBRACE :: x ++ [RBRACE]) ++ LBRACE :: y ++ [RBRACE]) = true ->
  re_match isalnum RE_FENCED_DIV_LINE
    ((p ++ LBRACE :: x ++ [RBRACE]) ++ LBRACE :: y ++ [RBRACE]) = false ->
  re_sub isalnum RE_HTML_TAG [] (p ++ LBRACE :: x ++ [RBRACE])
  = p ++ LBRACE :: x ++ [RBRACE] ->
  re_sub isalnum RE_ATTR_TRAILING []
    ((p ++ LBRACE :: x ++ [RBRACE]) ++ LBRACE :: y ++ [RBRACE])
  = p ++ LBRACE :: x ++ [RBRACE]
  /\ clean_markdown isalnum
       ((p ++ LBRACE :: x ++ [RBRACE]) ++ LBRACE :: y ++ [RBRACE])
     = lstrip (p ++ LBRACE :: x) ++ [RBRACE; NL].
Proof.
  intros Fy O NF NT.
  assert (K : p ++ LBRACE :: x ++ [RBRACE] = (p ++ LBRACE :: x) ++ [RBRACE]).
  { rewrite <- app_assoc. reflexivity. }
  rewrite K in *. set (u := p ++ LBRACE :: x) in *.
  assert (A : re_sub isalnum RE_ATTR_TRAILING []
                ((u ++ [RBRACE]) ++ LBRACE :: y ++ [RBRACE])
              = u ++ [RBRACE]).
  { rewrite <- app_assoc. apply attr_sub_last_group, Fy. }
  split; [exact A|].
  rewrite clean_markdown_normal. unfold collapsed.
  rewrite splitlines_single; [| exact O | destruct u; discriminate].
  simpl clean_lines. rewrite NF. unfold clean_line. rewrite A, NT.
  rewrite rstrip_fixed_snoc by reflexivity. simpl join.
  rewrite collapse_fixed.
  - rewrite strip_snoc by reflexivity. rewrite <- app_assoc. reflexivity.
  - apply one_line_no_triple. unfold one_line in *.
    rewrite forallb_app in O. apply andb_true_iff in O. apply O.
Qed.

(** C1, as amended: [clean_markdown] leaves its own output unchanged
    whenever no line of that output is a fenced-container line, ends with
    a brace group or holds a tag, that is, whenever the line loop has
    nothing left to remove. *)
Theorem clean_markdown_idempotent_when_no_markup_left md :
  Forall (fun l => re_match isalnum RE_FENCED_DIV_LINE l = false
                   /\ re_sub isalnum RE_HTML_TAG []
                        (re_sub isalnum RE_ATTR_TRAILING [] l) = l)
         (splitlines (clean_markdown isalnum md)) ->
  clean_markdown isalnum (clean_markdown isalnum md)
  = clean_markdown isalnum md.
Proof.
  intros H.
  rewrite (clean_markdown_normal isalnum (clean_markdown isalnum md)).
  unfold collapsed at 1.
  rewrite clean_lines_fixed.
  - rewrite join_splitlines by apply clean_markdown_only_nl.
    rewrite clean_markdown_normal, chomp_snoc. simpl.
    rewrite collapse_fixed by apply strip_no_triple, collapsed_no_triple.
    rewrite strip_idem. reflexivity.
  - pose proof (splitlines_tidy (clean_markdown isalnum md)
                  (clean_markdown_only_nl isalnum md)
                  (clean_markdown_tidy isalnum md)) as T.
    rewrite Forall_forall in *. intros l I.
    destruct (H l I) as [H1 H2]. auto.
Qed.

End NormalizerClaims.

(** ** The path filter *)

Lemma relative_to_spec path base rest :
  relative_to path base = Return rest <-> path = base ++ rest.
Proof.
  revert path. induction base as [|b base IH]; intros path; simpl.
  - split; [intros E; inversion E; reflexivity | intros ->; reflexivity].
  - destruct path as [|p path]; [split; discriminate|].
    destruct (text_eqb p b) eqn:E.
    + apply text_eqb_eq in E. subst p. rewrite IH.
      split; [intros ->; reflexivity | intros E; inversion E; reflexivity].
    + split; [discriminate|]. intros E'. inversion E'; subst.
      assert (T : text_eqb b b = true) by (apply text_eqb_eq; reflexivity).
      congruence.
Qed.

(** C10: for a path that does not lie under the base directory,
    [relative_to] raises ValueError, and [is_in_skipped_dir] catches it
    and returns False: it raises nothing. *)
Theorem is_in_skipped_dir_outside_base path base :
  (forall rest, path <> base ++ rest) ->
  relative_to path base = Raise ValueError
  /\ is_in_skipped_dir path base = Return false.
Proof.
  intros H.
  assert (E : relative_to path base = Raise ValueError).
  { destruct (relative_to path base) as [rest | e] eqn:E.
    - apply relative_to_spec in E. exfalso. exact (H rest E).
    - destruct e. reflexivity. }
  split; [exact E|]. unfold is_in_skipped_dir. rewrite E. reflexivity.
Qed.

(** ** The fallback driver *)

Section DriverClaims.

Variable isalnum : char -> bool.
Variable H : Host.
Variables docx_path out_md media_dir : Path H.

Lemma in_world_invoked (A : Type) (op : World H -> attempt A * World H) st :
  invoked (snd (in_world op st)) = invoked st.
Proof. unfold in_world. destruct (op (world st)); reflexivity. Qed.


Lemma read_output_state path st : snd (read_output H path st) = st.
Proof.
  unfold read_output.
  destruct (read_text H path (world st)) as [t | []]; reflexivity.
Qed.








End DriverClaims.

(** ** The code run on the examples of its description *)

Example splitlines_boundaries :
  splitlines (lit "a" ++ [CR; NL] ++ lit "b" ++ [CR] ++ lit "c" ++ [NL; NL])
  = [lit "a"; lit "b"; lit "c"; []]
  /\ splitlines [] = []
  /\ splitlines [NL] = [[]]
  /\ splitlines (lit "a" ++ [11%N] ++ lit "b") = [lit "a"; lit "b"].
Proof. repeat split. Qed.

Example attribute_stripping :
  clean_markdown isalnum_ascii (lit "some text {.class #id}")
  = lit "some text" ++ [NL].
Proof. vm_compute. reflexivity. Qed.

Example tag_stripping :
  clean_markdown isalnum_ascii (lit "<span>inner</span> rest")
  = lit "inner rest" ++ [NL].
Proof. vm_compute. reflexivity. Qed.

Example blank_run_collapsing :
  clean_markdown isalnum_ascii
    (lit "first" ++ [NL; NL; NL; NL] ++ lit "second")
  = lit "first" ++ [NL; NL] ++ lit "second" ++ [NL].
Proof. vm_compute. reflexivity. Qed.

Example whitespace_only_lines :
  clean_markdown isalnum_ascii
    (lit "first" ++ NL :: lit "  " ++ NL :: lit " " ++ NL :: lit "   "
     ++ NL :: lit "second  ")
  = lit "first" ++ [NL; NL] ++ lit "second" ++ [NL].
Proof. vm_compute. reflexivity. Qed.

Example fenced_container_removal :
  clean_markdown isalnum_ascii
    (lit "::: {.note}" ++ NL :: lit "inside" ++ NL :: lit ":::" ++ [NL])
  = lit "inside" ++ [NL].
Proof. vm_compute. reflexivity. Qed.

Example skip_set_exclusion :
  is_in_skipped_dir [lit "in"; lit ".git"; lit "a.docx"] [lit "in"]
  = Return true
  /\ is_in_skipped_dir [lit "in"; lit "docs"; lit "a.docx"] [lit "in"]
     = Return false.
Proof. split; reflexivity. Qed.

Lemma TO_CANDIDATES_NoDup : NoDup TO_CANDIDATES.
Proof.
  unfold TO_CANDIDATES.
  repeat (constructor; [vm_compute; intuition discriminate|]).
  constructor.
Qed.

(** ** The theorems at concrete inputs *)

(** Idempotence fails on a line that ends with two brace groups: the
    first pass leaves the first group, the second pass removes it. *)
Lemma clean_markdown_not_idempotent :
  (forall isalnum,
      clean_markdown isalnum (lit "a {x}{y}") = lit "a {x}" ++ [NL])
  /\ (forall isalnum,
        clean_markdown isalnum (lit "a {x}" ++ [NL]) = lit "a" ++ [NL])
  /\ (forall isalnum,
        clean_markdown isalnum (clean_markdown isalnum (lit "a {x}{y}"))
        <> clean_markdown isalnum (lit "a {x}{y}")).
Proof.
  split; [|split]; intros isalnum; vm_compute; [reflexivity | reflexivity |].
  discriminate.
Qed.

Lemma clean_markdown_idempotent_when_no_markup_left_witness :
  Forall (fun l => re_match isalnum_ascii RE_FENCED_DIV_LINE l = false
                   /\ re_sub isalnum_ascii RE_HTML_TAG []
                        (re_sub isalnum_ascii RE_ATTR_TRAILING [] l) = l)
         (splitlines
            (clean_markdown isalnum_ascii
               (lit "# Title {#id}" ++ [NL; NL; NL; NL]
                ++ lit "text <b>bold</b>  " ++ [NL])))
  /\ clean_markdown isalnum_ascii
       (clean_markdown isalnum_ascii
          (lit "# Title {#id}" ++ [NL; NL; NL; NL]
           ++ lit "text <b>bold</b>  " ++ [NL]))
     = lit "# Title" ++ [NL; NL] ++ lit "text bold" ++ [NL].
Proof.
  assert (F : Forall
                (fun l => re_match isalnum_ascii RE_FENCED_DIV_LINE l = false
                          /\ re_sub isalnum_ascii RE_HTML_TAG []
                               (re_sub isalnum_ascii RE_ATTR_TRAILING [] l)
                             = l)
                (splitlines
                   (clean_markdown isalnum_ascii
                      (lit "# Title {#id}" ++ [NL; NL; NL; NL]
                       ++ lit "text <b>bold</b>  " ++ [NL])))).
  { vm_compute splitlines.
    repeat (constructor; [split; vm_compute; reflexivity|]). constructor. }
  split; [exact F|].
  rewrite (clean_markdown_idempotent_when_no_markup_left isalnum_ascii _ F).
  vm_compute. reflexivity.
Defined.

(** A fenced-container line that ends with two brace groups is dropped
    whole: nothing of it, the first group included, is left. *)
Lemma container_line_with_two_groups_dropped :
  one_line (lit ":::{x}{y}") = true
  /\ (forall isalnum, clean_markdown isalnum (lit ":::{x}{y}") = [NL]).
Proof. split; [reflexivity | intros isalnum; vm_compute; reflexivity]. Qed.

Lemma trailing_attr_removes_last_group_only_witness :
  forallb (not_chr RBRACE) (lit "y") = true
  /\ one_line ((lit "a " ++ LBRACE :: lit "x" ++ [RBRACE])
               ++ LBRACE :: lit "y" ++ [RBRACE]) = true
  /\ re_match isalnum_ascii RE_FENCED_DIV_LINE
       ((lit "a " ++ LBRACE :: lit "x" ++ [RBRACE])
        ++ LBRACE :: lit "y" ++ [RBRACE]) = false
  /\ re_sub isalnum_ascii RE_HTML_TAG [] (lit "a " ++ LBRACE :: lit "x" ++ [RBRACE])
     = lit "a " ++ LBRACE :: lit "x" ++ [RBRACE]
  /\ re_sub isalnum_ascii RE_ATTR_TRAILING [] (lit "a {x}{y}") = lit "a {x}"
  /\ clean_markdown isalnum_ascii (lit "a {x}{y}") = lit "a {x}" ++ [NL].
Proof.
  refine (conj eq_refl (conj eq_refl (conj eq_refl (conj eq_refl _)))).
  exact (trailing_attr_removes_last_group_only isalnum_ascii
           (lit "a ") (lit "x") (lit "y") eq_refl eq_refl eq_refl eq_refl).
Defined.

Lemma multi_blank_collapsed_to_two_witness :
  3 <= 4 /\ ends_nl (lit "p") = false /\ starts_nl (lit "q") = false
  /\ re_sub isalnum_ascii RE_MULTI_BLANK [NL; NL]
       (lit "p" ++ repeat NL 4 ++ lit "q")
     = lit "p" ++ [NL; NL] ++ lit "q".
Proof.
  assert (L : 3 <= 4) by (repeat constructor).
  refine (conj L (conj eq_refl (conj eq_refl _))).
  exact (proj1 (multi_blank_collapsed_to_two isalnum_ascii
                  (lit "p") 4 (lit "q") L eq_refl eq_refl)).
Defined.


Lemma clean_markdown_drops_container_line_witness :
  container_line (lit "::: {.note}")
  /\ clean_markdown isalnum_ascii
       (lit "before" ++ NL :: lit "::: {.note}" ++ NL :: lit "after")
     = clean_markdown isalnum_ascii (lit "before" ++ NL :: lit "after")
  /\ clean_markdown isalnum_ascii (lit "before" ++ NL :: lit "after")
     = lit "before" ++ NL :: lit "after" ++ [NL].
Proof.
  assert (C : container_line (lit "::: {.note}")).
  { apply (container_attr 3 (lit " ") (lit ".note"));
      [repeat constructor | reflexivity | reflexivity | reflexivity]. }
  split; [exact C|]. split.
  - exact (proj1 (proj2 (clean_markdown_drops_container_line isalnum_ascii
                           (lit "::: {.note}") C))
             (lit "before") (lit "after")).
  - vm_compute. reflexivity.
Defined.

Lemma is_in_skipped_dir_outside_base_witness :
  (forall rest,
      [lit "home"; lit ".git"; lit "a.docx"] <> [lit "srv"] ++ rest)
  /\ is_in_skipped_dir [lit "home"; lit ".git"; lit "a.docx"] [lit "srv"]
     = Return false.
Proof.
  assert (N : forall rest,
             [lit "home"; lit ".git"; lit "a.docx"] <> [lit "srv"] ++ rest).
  { intros rest E. discriminate E. }
  split; [exact N|].
  exact (proj2 (is_in_skipped_dir_outside_base
                  [lit "home"; lit ".git"; lit "a.docx"] [lit "srv"] N)).
Defined.






(** * Further properties of the code *)

(** ** [clean_markdown]: what it puts out *)

Lemma splitlines_forall (P : char -> bool) (s : list N) :
  forallb P s = true ->
  Forall (fun l => forallb P l = true) (splitlines s).
Proof.
  induction s as [| s IH | c s L H IH | c s L IH] using splitlines_ind;
    intros F.
  - constructor.
  - rewrite splitlines_CRLF. simpl in F.
    apply andb_true_iff in F. destruct F as [_ F].
    apply andb_true_iff in F. destruct F as [_ F].
    constructor; [reflexivity | auto].
  - rewrite splitlines_break by assumption. simpl in F.
    apply andb_true_iff in F. destruct F as [_ F].
    constructor; [reflexivity | auto].
  - rewrite splitlines_char by assumption. simpl in F.
    apply andb_true_iff in F. destruct F as [Pc F]. specialize (IH F).
    destruct (splitlines s) as [|l ls].
    + constructor; [simpl; rewrite Pc; reflexivity | constructor].
    + inversion IH; subst. constructor; [|assumption].
      simpl. rewrite Pc. assumption.
Qed.

Section OutputCharacters.

Variable isalnum : char -> bool.

Lemma clean_lines_forall (P : char -> bool) ls :
  Forall (fun l => forallb P l = true) ls ->
  Forall (fun l => forallb P l = true) (clean_lines isalnum ls).
Proof.
  intros F. induction F as [|l ls Hl F IH]; [constructor|].
  simpl. destruct (re_match isalnum RE_FENCED_DIV_LINE l); [exact IH|].
  constructor; [|exact IH].
  unfold clean_line, re_sub. apply rstrip_forall.
  apply sub_from_forall; [reflexivity|].
  apply sub_from_forall; [reflexivity | exact Hl].
Qed.

Lemma clean_markdown_forall (P : char -> bool) md :
  P NL = true -> forallb P md = true ->
  forallb P (clean_markdown isalnum md) = true.
Proof.
  intros N F. rewrite clean_markdown_normal, forallb_app.
  simpl. rewrite N, andb_true_r. apply strip_forall.
  unfold collapsed. apply collapse_forall; [exact N|].
  apply join_forall; [simpl; rewrite N; reflexivity|].
  apply clean_lines_forall, splitlines_forall, F.
Qed.

(** X1: [clean_markdown] invents no character: whatever stands in its
    output is a line feed or a character of the input. *)
Theorem clean_markdown_no_new_character md c :
  In c (clean_markdown isalnum md) -> c = NL \/ In c md.
Proof.
  intros I.
  pose (P := fun d : N => (N.eqb d NL || existsb (N.eqb d) md)%bool).
  assert (F : forallb P (clean_markdown isalnum md) = true).
  { apply clean_markdown_forall; [reflexivity|].
    apply forallb_forall. intros d Hd. unfold P.
    apply orb_true_iff. right. apply existsb_exists.
    exists d. split; [exact Hd | apply N.eqb_refl]. }
  rewrite forallb_forall in F. specialize (F c I). unfold P in F.
  apply orb_true_iff in F. destruct F as [F | F].
  - left. apply N.eqb_eq, F.
  - right. apply existsb_exists in F. destruct F as [d [Hd E]].
    apply N.eqb_eq in E. subst d. exact Hd.
Qed.

(** X2: the output of [clean_markdown] has no whitespace at its start: it
    is the single line feed, or it starts with a character that is no
    whitespace. *)
Theorem clean_markdown_no_leading_whitespace md :
  clean_markdown isalnum md = [NL]
  \/ exists c rest,
      clean_markdown isalnum md = c :: rest /\ is_space c = false.
Proof.
  unfold clean_markdown. set (t := join [NL] _).
  unfold strip. pose proof (lstrip_head t) as H.
  destruct (lstrip t) as [|c u]; [left; reflexivity|].
  right. destruct (rstrip_head c u H) as [r E].
  exists c, (r ++ [NL]). rewrite E. split; [reflexivity | exact H].
Qed.

End OutputCharacters.

Lemma clean_markdown_no_new_character_witness :
  In 120%N (clean_markdown isalnum_ascii (lit "<b>x</b> {.a}"))
  /\ (120%N = NL \/ In 120%N (lit "<b>x</b> {.a}")).
Proof.
  assert (I : In 120%N (clean_markdown isalnum_ascii (lit "<b>x</b> {.a}"))).
  { vm_compute. left. reflexivity. }
  split; [exact I|].
  exact (clean_markdown_no_new_character isalnum_ascii
           (lit "<b>x</b> {.a}") 120%N I).
Defined.

(** ** [clean_markdown]: lengths *)

Lemma join_length sep l ls :
  length (join sep (l :: ls))
  = length l + match ls with
               | [] => 0
               | _ :: _ => length sep + length (join sep ls)
               end.
Proof.
  destruct ls as [|m ls]; [simpl; lia|].
  rewrite join_cons by discriminate. rewrite !length_app. reflexivity.
Qed.

Lemma join_splitlines_length (s : list N) :
  length (join [NL] (splitlines s)) <= length s.
Proof.
  induction s as [| s IH | c s L H IH | c s L IH] using splitlines_ind.
  - simpl. lia.
  - rewrite splitlines_CRLF, join_length. simpl length.
    destruct (splitlines s); simpl in *; lia.
  - rewrite splitlines_break by assumption. rewrite join_length.
    simpl length. destruct (splitlines s); simpl in *; lia.
  - rewrite splitlines_char by assumption.
    destruct (splitlines s) as [|l ls] eqn:E; [simpl; lia|].
    rewrite join_cons_cons, !length_cons. lia.
Qed.

Lemma rstrip_length s : length (rstrip s) <= length s.
Proof.
  destruct (rstrip_split s) as [w [E _]]. rewrite E at 2.
  rewrite length_app. lia.
Qed.

Lemma lstrip_length s : length (lstrip s) <= length s.
Proof.
  destruct (lstrip_split s) as [w [E _]]. rewrite E at 2.
  rewrite length_app. lia.
Qed.

Lemma strip_length s : length (strip s) <= length s.
Proof.
  unfold strip. pose proof (rstrip_length (lstrip s)).
  pose proof (lstrip_length s). lia.
Qed.

Section Lengths.

Variable isalnum : char -> bool.

(** A substitution whose replacement is no longer than the shortest match
    does not lengthen the text. *)
Lemma sub_from_length r repl :
  1 <= min_len r -> length repl <= min_len r ->
  forall s prev k,
    length (sub_from isalnum r repl prev k s) + Nat.min k (length s)
    <= length s.
Proof.
  intros H1 H2. induction s as [|c s IH]; intros prev k.
  - destruct k; simpl; [|lia].
    destruct (match_here isalnum r prev []) as [n|] eqn:M; [|simpl; lia].
    exfalso. pose proof (match_here_min_len isalnum r prev [] n M) as L.
    apply match_here_some in M. destruct M as [q [rest [_ E]]].
    simpl in E. lia.
  - destruct k as [|k].
    + simpl sub_from.
      destruct (match_here isalnum r prev (c :: s)) as [n|] eqn:M.
      * pose proof (match_here_min_len isalnum r prev (c :: s) n M) as L.
        apply match_here_some in M. destruct M as [q [rest [_ E]]].
        destruct n as [|n]; [lia|].
        specialize (IH (Some c) n). rewrite length_app.
        simpl length in *. lia.
      * specialize (IH (Some c) 0). simpl length in *. lia.
    + simpl sub_from. specialize (IH (Some c) k). simpl length. lia.
Qed.

Lemma re_sub_length r repl s :
  1 <= min_len r -> length repl <= min_len r ->
  length (re_sub isalnum r repl s) <= length s.
Proof.
  intros H1 H2. pose proof (sub_from_length r repl H1 H2 s None 0).
  unfold re_sub. lia.
Qed.

Lemma clean_line_length l : length (clean_line isalnum l) <= length l.
Proof.
  unfold clean_line.
  pose proof (rstrip_length
                (re_sub isalnum RE_HTML_TAG []
                   (re_sub isalnum RE_ATTR_TRAILING [] l))).
  pose proof (re_sub_length RE_HTML_TAG []
                (re_sub isalnum RE_ATTR_TRAILING [] l)).
  pose proof (re_sub_length RE_ATTR_TRAILING [] l).
  simpl in *. lia.
Qed.

Lemma clean_lines_join_length ls :
  length (join [NL] (clean_lines isalnum ls)) <= length (join [NL] ls).
Proof.
  induction ls as [|l ls IH]; [simpl; lia|].
  rewrite (join_length [NL] l ls). simpl clean_lines.
  destruct (re_match isalnum RE_FENCED_DIV_LINE l).
  - destruct ls; simpl in *; lia.
  - rewrite join_length. pose proof (clean_line_length l).
    destruct ls as [|m ls]; [simpl; lia|].
    destruct (clean_lines isalnum (m :: ls)); simpl length in *; lia.
Qed.

(** X3: [clean_markdown] never makes a text longer, the line feed it puts
    at the end apart. *)
Theorem clean_markdown_length md :
  length (clean_markdown isalnum md) <= length md + 1.
Proof.
  rewrite clean_markdown_normal, length_app. simpl.
  pose proof (strip_length (collapsed isalnum md)).
  unfold collapsed in *.
  pose proof (re_sub_length RE_MULTI_BLANK [NL; NL]
                (join [NL] (clean_lines isalnum (splitlines md)))).
  pose proof (clean_lines_join_length (splitlines md)).
  pose proof (join_splitlines_length md).
  simpl in *. lia.
Qed.

End Lengths.

(** ** The line edits: what they leave alone *)

Lemma forallb_suffix (P : char -> bool) (a b : list N) :
  forallb P (a ++ b) = true -> forallb P b = true.
Proof. rewrite forallb_app, andb_true_iff. tauto. Qed.

Section LeftAlone.

Variable isalnum : char -> bool.

Lemma run_opt_elim a k k' :
  In k' (run isalnum (Opt a) k) -> In k' (run isalnum a k) \/ k' = k.
Proof.
  simpl. intros I. apply in_app_or in I.
  destruct I as [I | [E | []]]; auto.
Qed.

Lemma run_bos_elim k k' : In k' (run isalnum Bos k) -> k' = k /\ fst k = None.
Proof.
  destruct k as [[c|] s]; simpl; [intros [] | intros [E | []]; auto].
Qed.

Lemma run_wordb_elim k k' :
  In k' (run isalnum WordB k) ->
  k' = k
  /\ xorb (word_at isalnum (fst k)) (word_at isalnum (hd_error (snd k)))
     = true.
Proof.
  simpl.
  destruct (xorb (word_at isalnum (fst k))
              (word_at isalnum (hd_error (snd k)))); [|intros []].
  intros [E | []]. auto.
Qed.

(** Where no suffix of the text starts a match, [sub] changes nothing. *)
Lemma sub_from_fixed r repl s :
  (forall a b prev, s = a ++ b -> match_here isalnum r prev b = None) ->
  forall prev, sub_from isalnum r repl prev 0 s = s.
Proof.
  induction s as [|c s IH]; intros H prev.
  - simpl. rewrite (H [] [] prev eq_refl). reflexivity.
  - rewrite sub_from_nomatch by (apply (H [] (c :: s)); reflexivity).
    f_equal. apply IH. intros a b q E. apply (H (c :: a) b q).
    rewrite E. reflexivity.
Qed.

(** A match of RE_HTML_TAG: an opening angle bracket, possibly a slash,
    a name, anything but a closing angle bracket, and the closing angle
    bracket. *)
Lemma html_sound prev s q r :
  In (q, r) (run isalnum RE_HTML_TAG (prev, s)) ->
  exists sl c name attrs,
    s = LT :: sl ++ c :: name ++ attrs ++ GT :: r
    /\ (sl = [] \/ sl = [SLASH])
    /\ is_ascii_alpha c = true
    /\ forallb is_ascii_alnum name = true
    /\ forallb (not_chr GT) attrs = true.
Proof.
  unfold RE_HTML_TAG. intros H.
  apply run_seq_elim in H. destruct H as [[q1 s1] [H1 H]].
  apply run_chr_elim in H1. destruct H1 as [c1 [-> C1]].
  apply N.eqb_eq in C1. subst c1.
  apply run_seq_elim in H. destruct H as [[q2 s2] [H2 H]].
  assert (S2 : exists sl, s1 = sl ++ s2 /\ (sl = [] \/ sl = [SLASH])).
  { apply run_opt_elim in H2. destruct H2 as [H2 | E].
    - apply run_chr_elim in H2. destruct H2 as [c2 [-> C2]].
      apply N.eqb_eq in C2. subst c2. exists [SLASH]. auto.
    - inversion E. exists []. auto. }
  destruct S2 as [sl [-> SL]].
  apply run_seq_elim in H. destruct H as [[q3 s3] [H3 H]].
  apply run_chr_elim in H3. destruct H3 as [c [-> C]].
  apply run_seq_elim in H. destruct H as [[q4 s4] [H4 H]].
  apply run_rep_elim in H4. destruct H4 as [name [-> [Fn _]]].
  apply run_seq_elim in H. destruct H as [[q5 s5] [H5 H]].
  apply run_wordb_elim in H5. destruct H5 as [E5 _]. inversion E5; subst.
  apply run_seq_elim in H. destruct H as [[q6 s6] [H6 H]].
  apply run_rep_elim in H6. destruct H6 as [attrs [-> [Fa _]]].
  apply run_chr_elim in H. destruct H as [c7 [-> C7]].
  apply N.eqb_eq in C7. subst c7.
  exists sl, c, name, attrs. auto.
Qed.

Lemma attr_sub_no_brace s :
  forallb (not_chr LBRACE) s = true ->
  re_sub isalnum RE_ATTR_TRAILING [] s = s.
Proof.
  intros F. apply sub_from_fixed. intros a b prev E. subst s.
  apply forallb_suffix in F.
  destruct (match_here isalnum RE_ATTR_TRAILING prev b) as [n|] eqn:M;
    [|reflexivity].
  exfalso. apply match_here_some in M. destruct M as [q [rest [I _]]].
  apply attr_sound in I. destruct I as [ws [body [ws' [-> _]]]].
  apply forallb_suffix in F. simpl in F. discriminate F.
Qed.

Lemma html_sub_no_lt s :
  forallb (not_chr LT) s = true -> re_sub isalnum RE_HTML_TAG [] s = s.
Proof.
  intros F. apply sub_from_fixed. intros a b prev E. subst s.
  apply forallb_suffix in F.
  destruct (match_here isalnum RE_HTML_TAG prev b) as [n|] eqn:M;
    [|reflexivity].
  exfalso. apply match_here_some in M. destruct M as [q [rest [I _]]].
  apply html_sound in I. destruct I as [sl [c [name [attrs [-> _]]]]].
  simpl in F. discriminate F.
Qed.

Lemma html_sub_no_gt s :
  forallb (not_chr GT) s = true -> re_sub isalnum RE_HTML_TAG [] s = s.
Proof.
  intros F. apply sub_from_fixed. intros a b prev E. subst s.
  apply forallb_suffix in F.
  destruct (match_here isalnum RE_HTML_TAG prev b) as [n|] eqn:M;
    [|reflexivity].
  exfalso. apply match_here_some in M. destruct M as [q [rest [I _]]].
  apply html_sound in I. destruct I as [sl [c [name [attrs [-> _]]]]].
  change (LT :: sl ++ c :: name ++ attrs ++ GT :: rest)
    with ((LT :: sl) ++ (c :: name) ++ attrs ++ GT :: rest) in F.
  do 3 apply forallb_suffix in F. simpl in F. discriminate F.
Qed.

(** X4: RE_HTML_TAG.sub leaves a text alone that holds no opening or no
    closing angle bracket. *)
Theorem html_tag_sub_needs_both_brackets s :
  forallb (not_chr LT) s = true \/ forallb (not_chr GT) s = true ->
  re_sub isalnum RE_HTML_TAG [] s = s.
Proof. intros [F | F]; [apply html_sub_no_lt | apply html_sub_no_gt]; exact F. Qed.

(** X5: on a line, RE_ATTR_TRAILING.sub removes a piece at the end only:
    either nothing, or one brace group that holds no closing brace, with
    the whitespace around it, is cut off the end of the line. *)
Theorem attr_trailing_sub_removes_suffix l :
  one_line l = true ->
  re_sub isalnum RE_ATTR_TRAILING [] l = l
  \/ exists ws body ws',
      l = re_sub isalnum RE_ATTR_TRAILING [] l
          ++ ws ++ LBRACE :: body ++ RBRACE :: ws'
      /\ forallb is_space ws = true
      /\ forallb (not_chr RBRACE) body = true
      /\ forallb is_space ws' = true.
Proof.
  unfold re_sub. induction l as [|c l IH]; intros O; [left; reflexivity|].
  destruct (match_here isalnum RE_ATTR_TRAILING None (c :: l)) as [n|] eqn:M.
  - right. pose proof M as M'.
    apply match_here_some in M'. destruct M' as [q [rest [I En]]].
    apply attr_sound in I.
    destruct I as [ws [body [ws' [E [Fws [Fb [Fws' R]]]]]]].
    assert (rest = []) as ->.
    { destruct R as [-> | ->]; [reflexivity|]. exfalso.
      apply (one_line_last_NL (c :: l)
               (ws ++ LBRACE :: body ++ RBRACE :: ws') O).
      rewrite E, <- !app_assoc. simpl. rewrite <- !app_assoc. reflexivity. }
    simpl in En. subst n.
    assert (M2 : match_here isalnum RE_ATTR_TRAILING None (c :: l ++ [])
                 = Some (S (length l))).
    { rewrite app_nil_r. exact M. }
    destruct (sub_from_match isalnum RE_ATTR_TRAILING [] None c l [] M2)
      as [q' E'].
    rewrite app_nil_r in E'. rewrite E'. simpl.
    exists ws, body, ws'. rewrite app_nil_r in E. auto.
  - rewrite sub_from_nomatch by exact M. rewrite attr_sub_from.
    apply one_line_cons in O. destruct O as [_ O].
    destruct (IH O) as [E | [ws [body [ws' [E H]]]]].
    + left. rewrite E. reflexivity.
    + right. exists ws, body, ws'. split; [|exact H].
      simpl. rewrite <- E. reflexivity.
Qed.

End LeftAlone.

Lemma html_tag_sub_needs_both_brackets_witness :
  (forallb (not_chr LT) (lit "a > b") = true
   \/ forallb (not_chr GT) (lit "a > b") = true)
  /\ re_sub isalnum_ascii RE_HTML_TAG [] (lit "a > b") = lit "a > b".
Proof.
  assert (H : forallb (not_chr LT) (lit "a > b") = true
              \/ forallb (not_chr GT) (lit "a > b") = true)
    by (left; reflexivity).
  split; [exact H|].
  exact (html_tag_sub_needs_both_brackets isalnum_ascii (lit "a > b") H).
Defined.

Lemma attr_trailing_sub_removes_suffix_witness :
  one_line (lit "# Title {#t}  ") = true
  /\ (re_sub isalnum_ascii RE_ATTR_TRAILING [] (lit "# Title {#t}  ")
      = lit "# Title {#t}  "
      \/ exists ws body ws',
          lit "# Title {#t}  "
          = re_sub isalnum_ascii RE_ATTR_TRAILING [] (lit "# Title {#t}  ")
            ++ ws ++ LBRACE :: body ++ RBRACE :: ws'
          /\ forallb is_space ws = true
          /\ forallb (not_chr RBRACE) body = true
          /\ forallb is_space ws' = true).
Proof.
  split; [reflexivity|].
  exact (attr_trailing_sub_removes_suffix isalnum_ascii
           (lit "# Title {#t}  ") eq_refl).
Defined.

(** ** [clean_markdown]: plain text, and the kinds of line boundary *)

Lemma forallb_and (A B : char -> bool) (l : list N) :
  forallb (fun c => A c && B c) l = true ->
  forallb A l = true /\ forallb B l = true.
Proof.
  induction l as [|c l IH]; simpl; [auto|].
  rewrite !andb_true_iff. intros [[Ha Hb] H]. destruct (IH H). auto.
Qed.

Lemma strip_fixed_chomp t : strip t = t -> chomp t = t.
Proof.
  destruct t as [|d t] using rev_ind; [reflexivity|]. intros E.
  rewrite chomp_snoc. destruct (N.eqb_spec d NL) as [->|]; [|reflexivity].
  apply strip_last in E. discriminate E.
Qed.

(** A line boundary after a text that does not end with a carriage
    return closes a line, like a line feed. *)
Lemma splitlines_app_boundary (a : list N) term b :
  splitlines (term ++ b) = [] :: splitlines b ->
  (forall a', a <> a' ++ [CR]) ->
  splitlines (a ++ term ++ b) = splitlines (a ++ [NL]) ++ splitlines b.
Proof.
  intros T.
  induction a as [| s IH | c s L H IH | c s L IH] using splitlines_ind;
    intros NE.
  - change ([] ++ term ++ b) with (term ++ b). rewrite T. reflexivity.
  - change ((CR :: NL :: s) ++ term ++ b) with (CR :: NL :: (s ++ term ++ b)).
    change ((CR :: NL :: s) ++ [NL]) with (CR :: NL :: (s ++ [NL])).
    rewrite !splitlines_CRLF, IH; [reflexivity|].
    intros a' E. apply (NE (CR :: NL :: a')). rewrite E. reflexivity.
  - destruct s as [|d s].
    + assert (C : c <> CR).
      { intros ->. apply (NE []). reflexivity. }
      change (splitlines (c :: (term ++ b))
              = splitlines (c :: [NL]) ++ splitlines b).
      rewrite !(splitlines_break c), T; auto; congruence.
    + change ((c :: d :: s) ++ term ++ b)
        with (c :: ((d :: s) ++ term ++ b)).
      change ((c :: d :: s) ++ [NL]) with (c :: ((d :: s) ++ [NL])).
      rewrite !(splitlines_break c), IH; auto.
      intros a' E. apply (NE (c :: a')). rewrite E. reflexivity.
  - change ((c :: s) ++ term ++ b) with (c :: (s ++ term ++ b)).
    change ((c :: s) ++ [NL]) with (c :: (s ++ [NL])).
    assert (NE' : forall a', s <> a' ++ [CR]).
    { intros a' E. apply (NE (c :: a')). rewrite E. reflexivity. }
    rewrite !splitlines_char, (IH NE') by assumption.
    destruct (splitlines (s ++ [NL])) eqn:E; [|reflexivity].
    apply splitlines_nil_iff in E. destruct s; discriminate.
Qed.

Section PlainText.

Variable isalnum : char -> bool.

(** X6: a text with nothing to tidy is returned as it is, closed by a
    line feed: its lines are cut by line feeds only, none ends with
    whitespace or is a fenced-container line, no three line feeds stand
    in a row, no whitespace stands at its start or end, and it holds no
    opening brace and no opening angle bracket. *)
Theorem clean_markdown_plain_text t :
  only_nl t = true ->
  Forall (fun l => rstrip l = l
                   /\ re_match isalnum RE_FENCED_DIV_LINE l = false)
         (splitlines t) ->
  has_triple t = false ->
  strip t = t ->
  forallb (fun c => not_chr LBRACE c && not_chr LT c) t = true ->
  clean_markdown isalnum t = t ++ [NL].
Proof.
  intros O F T S P.
  rewrite clean_markdown_normal. unfold collapsed.
  rewrite clean_lines_fixed.
  - rewrite join_splitlines by exact O.
    rewrite (strip_fixed_chomp t S), collapse_fixed by exact T.
    rewrite S. reflexivity.
  - pose proof (splitlines_forall _ t P) as Q.
    rewrite Forall_forall in *. intros l I.
    destruct (F l I) as [R NF]. specialize (Q l I).
    apply forallb_and in Q. destruct Q as [Q1 Q2].
    split; [exact NF|]. split; [|exact R].
    rewrite attr_sub_no_brace by exact Q1. apply html_sub_no_lt, Q2.
Qed.

(** X7: after a text that does not end with a carriage return, the
    pair carriage return, line feed and any single line boundary (a
    carriage return not followed by a line feed) count as a line feed:
    [clean_markdown] returns the same text for them. *)
Theorem clean_markdown_line_boundaries a b :
  (forall a', a <> a' ++ [CR]) ->
  clean_markdown isalnum (a ++ CR :: NL :: b)
  = clean_markdown isalnum (a ++ NL :: b)
  /\ (forall c,
        is_linebreak c = true -> (c = CR -> starts_nl b = false) ->
        clean_markdown isalnum (a ++ c :: b)
        = clean_markdown isalnum (a ++ NL :: b)).
Proof.
  intros NE. split.
  - apply clean_markdown_lines. f_equal.
    change (a ++ CR :: NL :: b) with (a ++ [CR; NL] ++ b).
    rewrite (splitlines_app_boundary a [CR; NL] b (splitlines_CRLF b) NE).
    symmetry. apply splitlines_app_NL.
  - intros c L H. apply clean_markdown_lines. f_equal.
    change (a ++ c :: b) with (a ++ [c] ++ b).
    rewrite (splitlines_app_boundary a [c] b (splitlines_break c b L H) NE).
    symmetry. apply splitlines_app_NL.
Qed.

End PlainText.

Lemma clean_markdown_plain_text_witness :
  only_nl (lit "Title" ++ [NL; NL] ++ lit "a: b > c") = true
  /\ Forall (fun l => rstrip l = l
                      /\ re_match isalnum_ascii RE_FENCED_DIV_LINE l = false)
            (splitlines (lit "Title" ++ [NL; NL] ++ lit "a: b > c"))
  /\ has_triple (lit "Title" ++ [NL; NL] ++ lit "a: b > c") = false
  /\ strip (lit "Title" ++ [NL; NL] ++ lit "a: b > c")
     = lit "Title" ++ [NL; NL] ++ lit "a: b > c"
  /\ forallb (fun c => not_chr LBRACE c && not_chr LT c)
       (lit "Title" ++ [NL; NL] ++ lit "a: b > c") = true
  /\ clean_markdown isalnum_ascii (lit "Title" ++ [NL; NL] ++ lit "a: b > c")
     = (lit "Title" ++ [NL; NL] ++ lit "a: b > c") ++ [NL].
Proof.
  assert (F : Forall
                (fun l => rstrip l = l
                          /\ re_match isalnum_ascii RE_FENCED_DIV_LINE l
                             = false)
                (splitlines (lit "Title" ++ [NL; NL] ++ lit "a: b > c"))).
  { vm_compute splitlines.
    repeat (constructor; [split; vm_compute; reflexivity|]). constructor. }
  refine (conj eq_refl (conj F (conj eq_refl (conj eq_refl (conj eq_refl _))))).
  exact (clean_markdown_plain_text isalnum_ascii
           (lit "Title" ++ [NL; NL] ++ lit "a: b > c")
           eq_refl F eq_refl eq_refl eq_refl).
Defined.

Lemma clean_markdown_line_boundaries_witness :
  (forall a', lit "one" <> a' ++ [CR])
  /\ clean_markdown isalnum_ascii (lit "one" ++ CR :: NL :: lit "two")
     = clean_markdown isalnum_ascii (lit "one" ++ NL :: lit "two")
  /\ clean_markdown isalnum_ascii (lit "one" ++ 8232%N :: lit "two")
     = clean_markdown isalnum_ascii (lit "one" ++ NL :: lit "two").
Proof.
  assert (NE : forall a', lit "one" <> a' ++ [CR]).
  { intros a' E. change (lit "one") with (lit "on" ++ [101%N]) in E.
    apply app_inj_tail in E. destruct E as [_ E]. discriminate E. }
  split; [exact NE|]. split.
  - exact (proj1 (clean_markdown_line_boundaries isalnum_ascii
                    (lit "one") (lit "two") NE)).
  - refine (proj2 (clean_markdown_line_boundaries isalnum_ascii
                     (lit "one") (lit "two") NE) 8232%N eq_refl _).
    intros E. discriminate E.
Defined.

(** ** The lines the loop drops, and the tags it removes *)

Lemma forallb_colon_repeat (a : list N) :
  forallb (is_chr COLON) a = true -> a = repeat COLON (length a).
Proof.
  induction a as [|c a IH]; simpl; [reflexivity|].
  rewrite andb_true_iff. intros [C F]. apply N.eqb_eq in C. subst c.
  rewrite <- IH by exact F. reflexivity.
Qed.

(** Up to the first closing angle bracket a text is cut in one way. *)
Lemma first_gt_unique (x y : list N) r r' :
  forallb (not_chr GT) x = true -> forallb (not_chr GT) y = true ->
  x ++ GT :: r = y ++ GT :: r' -> x = y /\ r = r'.
Proof.
  revert y. induction x as [|c x IH]; intros [|d y] Fx Fy E; simpl in *.
  - inversion E. auto.
  - inversion E; subst. discriminate Fy.
  - inversion E; subst. discriminate Fx.
  - apply andb_true_iff in Fx. destruct Fx as [_ Fx].
    apply andb_true_iff in Fy. destruct Fy as [_ Fy].
    inversion E; subst. destruct (IH y Fx Fy H1) as [-> ->]. auto.
Qed.

Lemma star_last (p : char -> bool) prev a r :
  forallb p a = true ->
  exists q, In (q, r) (star p prev (a ++ r))
            /\ (a = [] -> q = prev)
            /\ (a <> [] -> exists x, q = Some x /\ In x a).
Proof.
  revert prev. induction a as [|c a IH]; intros prev F.
  - exists prev. split; [apply star_self|]. split; [auto | congruence].
  - simpl in F. apply andb_true_iff in F. destruct F as [C F].
    destruct (IH (Some c) F) as [q [I [Q0 Q1]]]. exists q.
    split; [simpl; rewrite C; apply in_or_app; auto|].
    split; [discriminate|]. intros _.
    destruct a as [|d a].
    + exists c. split; [apply Q0; reflexivity | left; reflexivity].
    + destruct Q1 as [x [-> Ix]]; [discriminate|].
      exists x. split; [reflexivity | right; exact Ix].
Qed.

Section DroppedAndRemoved.

Variable isalnum : char -> bool.

(** X8: the line loop drops a line only if it is made of whitespace,
    three or more colons, whitespace, an optional brace group and
    whitespace, in this order. *)
Theorem fenced_div_line_shape l :
  one_line l = true ->
  re_match isalnum RE_FENCED_DIV_LINE l = true ->
  exists ws n gap grp ws',
    l = ws ++ repeat COLON n ++ gap ++ grp ++ ws'
    /\ 3 <= n
    /\ forallb is_space ws = true
    /\ forallb is_space gap = true
    /\ forallb is_space ws' = true
    /\ (grp = [] \/ exists body, grp = LBRACE :: body ++ [RBRACE]).
Proof.
  intros O M. unfold re_match in M.
  destruct (match_here isalnum RE_FENCED_DIV_LINE None l) as [n0|] eqn:E;
    [clear M | discriminate M].
  apply match_here_some in E. destruct E as [q [rest [H _]]].
  unfold RE_FENCED_DIV_LINE in H.
  apply run_seq_elim in H. destruct H as [[q0 s0] [H0 H]].
  apply run_bos_elim in H0. destruct H0 as [E0 _]. inversion E0; subst.
  apply run_seq_elim in H. destruct H as [[q1 s1] [H1 H]].
  apply run_rep_elim in H1. destruct H1 as [ws [-> [Fws _]]].
  apply run_seq_elim in H. destruct H as [[q2 s2] [H2 H]].
  apply run_chr_elim in H2. destruct H2 as [c2 [-> C2]].
  apply run_seq_elim in H. destruct H as [[q3 s3] [H3 H]].
  apply run_chr_elim in H3. destruct H3 as [c3 [-> C3]].
  apply run_seq_elim in H. destruct H as [[q4 s4] [H4 H]].
  apply run_rep_elim in H4. destruct H4 as [cs [-> [Fcs Lcs]]].
  apply run_seq_elim in H. destruct H as [[q5 s5] [H5 H]].
  apply run_rep_elim in H5. destruct H5 as [gap [-> [Fgap _]]].
  apply run_seq_elim in H. destruct H as [[q6 s6] [H6 H]].
  assert (G : exists grp, s5 = grp ++ s6
                          /\ (grp = [] \/ exists body,
                                 grp = LBRACE :: body ++ [RBRACE])).
  { apply run_opt_elim in H6. destruct H6 as [H6 | E6].
    - apply run_seq_elim in H6. destruct H6 as [[q7 s7] [H7 H6]].
      apply run_chr_elim in H7. destruct H7 as [c7 [-> C7]].
      apply run_seq_elim in H6. destruct H6 as [[q8 s8] [H8 H6]].
      apply run_rep_elim in H8. destruct H8 as [body [-> _]].
      apply run_chr_elim in H6. destruct H6 as [c9 [-> C9]].
      apply N.eqb_eq in C7, C9. subst c7 c9.
      exists (LBRACE :: body ++ [RBRACE]). split.
      + simpl. rewrite <- app_assoc. reflexivity.
      + right. exists body. reflexivity.
    - inversion E6. exists []. auto. }
  destruct G as [grp [-> G]].
  apply run_seq_elim in H. destruct H as [[q9 s9] [H9 H]].
  apply run_rep_elim in H9. destruct H9 as [ws' [-> [Fws' _]]].
  apply run_eos_elim in H. destruct H as [Er R]. subst s9.
  apply N.eqb_eq in C2, C3. subst c2 c3.
  assert (rest = []) as ->.
  { destruct R as [-> | ->]; [reflexivity|]. exfalso.
    apply (one_line_last_NL _
             (ws ++ COLON :: COLON :: cs ++ gap ++ grp ++ ws') O).
    rewrite <- !app_assoc. simpl. rewrite <- !app_assoc. reflexivity. }
  exists ws, (S (S (length cs))), gap, grp, ws'.
  rewrite app_nil_r. simpl repeat.
  rewrite <- (forallb_colon_repeat cs Fcs).
  split; [reflexivity|].
  split; [lia|]. auto.
Qed.

Lemma html_sub_keeps_prefix pre rest :
  forallb (not_chr LT) pre = true ->
  forall prev, exists q,
    sub_from isalnum RE_HTML_TAG [] prev 0 (pre ++ rest)
    = pre ++ sub_from isalnum RE_HTML_TAG [] q 0 rest.
Proof.
  induction pre as [|c pre IH]; intros F prev; [exists prev; reflexivity|].
  simpl in F. apply andb_true_iff in F. destruct F as [C F].
  destruct (IH F (Some c)) as [q E]. exists q.
  change ((c :: pre) ++ rest) with (c :: (pre ++ rest)).
  rewrite sub_from_nomatch; [rewrite E; reflexivity|].
  destruct (match_here isalnum RE_HTML_TAG prev (c :: pre ++ rest))
    as [n|] eqn:M; [|reflexivity].
  exfalso. apply match_here_some in M. destruct M as [q' [r [I _]]].
  apply html_sound in I. destruct I as [sl [c' [name [attrs [E' _]]]]].
  inversion E'; subst. discriminate C.
Qed.

(** X9: a tag (an opening angle bracket, possibly a slash, a name of
    ASCII letters and digits that starts with a letter, and anything up
    to the next closing angle bracket, the name ending at a word
    boundary) is removed by RE_HTML_TAG.sub, and the text around it,
    when it holds no opening angle bracket, is kept as it is. *)
Theorem html_tag_removed pre sl c name attrs post :
  (forall x, is_ascii_alnum x = true -> isalnum x = true) ->
  is_word isalnum (hd GT attrs) = false ->
  forallb (not_chr LT) pre = true ->
  forallb (not_chr LT) post = true ->
  sl = [] \/ sl = [SLASH] ->
  is_ascii_alpha c = true ->
  forallb is_ascii_alnum name = true ->
  forallb (not_chr GT) attrs = true ->
  re_sub isalnum RE_HTML_TAG []
    (pre ++ (LT :: sl ++ c :: name ++ attrs ++ [GT]) ++ post)
  = pre ++ post.
Proof.
  intros Tbl Wb Fpre Fpost SL C Fn Fa. unfold re_sub.
  destruct (html_sub_keeps_prefix pre
              ((LT :: sl ++ c :: name ++ attrs ++ [GT]) ++ post) Fpre None)
    as [q ->].
  f_equal.
  set (body := sl ++ c :: name ++ attrs ++ [GT]).
  assert (M : match_here isalnum RE_HTML_TAG q (LT :: body ++ post)
              = Some (S (length body))).
  { assert (I : In (Some GT, post)
                   (run isalnum RE_HTML_TAG (q, LT :: body ++ post))).
    { assert (Etxt : body ++ post = sl ++ c :: name ++ attrs ++ GT :: post).
      { unfold body. rewrite <- !app_assoc. simpl.
        rewrite <- !app_assoc. reflexivity. }
      rewrite Etxt. clear Etxt.
      destruct (star_last is_ascii_alnum (Some c) name
                  (attrs ++ GT :: post) Fn) as [q4 [I4 [Q0 Q1]]].
      destruct (star_complete (not_chr GT) q4 attrs (GT :: post) Fa)
        as [q6 I6].
      assert (W : word_at isalnum q4 = true).
      { assert (Wc : is_word isalnum c = true).
        { unfold is_word. rewrite Tbl; [reflexivity|].
          unfold is_ascii_alnum. rewrite C. reflexivity. }
        destruct name as [|d name].
        - rewrite (Q0 eq_refl). exact Wc.
        - destruct Q1 as [x [-> Ix]]; [discriminate|]. simpl.
          unfold is_word. rewrite Tbl; [reflexivity|].
          rewrite forallb_forall in Fn. apply Fn, Ix. }
      assert (Tail : forall p0,
                 In (Some GT, post)
                    (run isalnum
                       (Chr is_ascii_alpha ;; Repeat 0 is_ascii_alnum ;;
                        WordB ;; Repeat 0 (not_chr GT) ;;
                        Chr (is_chr GT))%re
                       (p0, c :: name ++ attrs ++ GT :: post))).
      { intros p0.
        eapply run_seq_intro; [apply run_chr_intro; exact C|].
        eapply run_seq_intro; [exact I4|].
        eapply run_seq_intro.
        - simpl. rewrite W.
          replace (word_at isalnum (hd_error (attrs ++ GT :: post)))
            with false; [left; reflexivity|].
          destruct attrs; simpl in *; congruence.
        - eapply run_seq_intro; [exact I6|].
          apply run_chr_intro. reflexivity. }
      unfold RE_HTML_TAG.
      eapply run_seq_intro; [apply run_chr_intro; reflexivity|].
      destruct SL as [-> | ->].
      - eapply run_seq_intro; [apply run_opt_skip | apply Tail].
      - eapply run_seq_intro;
          [apply run_opt_take; apply run_chr_intro; reflexivity
          | apply Tail]. }
    destruct (match_here_in isalnum _ _ _ _ I) as [n Mn]. rewrite Mn.
    apply match_here_some in Mn. destruct Mn as [q' [rest [I' ->]]].
    apply html_sound in I'.
    destruct I' as [sl' [c' [name' [attrs' [E [SL' [C' [Fn' Fa']]]]]]]].
    assert (U : rest = post).
    { unfold body in E.
      assert (G : forall l, forallb is_ascii_alnum l = true
                            -> forallb (not_chr GT) l = true).
      { intros l. rewrite !forallb_forall. intros A x Ix.
        specialize (A x Ix). unfold not_chr.
        destruct (N.eqb_spec x GT) as [->|]; [discriminate A | reflexivity]. }
      assert (Ga : forall x, is_ascii_alpha x = true -> not_chr GT x = true).
      { intros x A. unfold not_chr.
        destruct (N.eqb_spec x GT) as [->|]; [discriminate A | reflexivity]. }
      inversion E as [E1]. clear E.
      assert (E2 : (sl ++ c :: name ++ attrs) ++ GT :: post
                   = (sl' ++ c' :: name' ++ attrs') ++ GT :: rest).
      { rewrite <- !app_assoc. simpl. rewrite <- !app_assoc.
        rewrite <- E1. rewrite <- !app_assoc. simpl.
        rewrite <- !app_assoc. reflexivity. }
      apply first_gt_unique in E2.
      - destruct E2 as [_ U]. symmetry. exact U.
      - rewrite forallb_app. simpl. rewrite forallb_app.
        rewrite (Ga c C), (G name Fn), Fa.
        destruct SL as [-> | ->]; reflexivity.
      - rewrite forallb_app. simpl. rewrite forallb_app.
        rewrite (Ga c' C'), (G name' Fn'), Fa'.
        destruct SL' as [-> | ->]; reflexivity. }
    rewrite U. f_equal. simpl length. rewrite length_app. lia. }
  change ((LT :: body) ++ post) with (LT :: body ++ post).
  destruct (sub_from_match isalnum RE_HTML_TAG [] q LT body post M)
    as [q' ->].
  simpl. apply sub_from_fixed.
  intros a b prev E.
  destruct (match_here isalnum RE_HTML_TAG prev b) as [n|] eqn:Mb;
    [|reflexivity].
  exfalso. apply match_here_some in Mb. destruct Mb as [q'' [r [I _]]].
  apply html_sound in I. destruct I as [sl' [c' [name' [attrs' [-> _]]]]].
  rewrite E in Fpost. apply forallb_suffix in Fpost.
  simpl in Fpost. discriminate Fpost.
Qed.

End DroppedAndRemoved.

Lemma fenced_div_line_shape_witness :
  one_line (lit "  :::: {.x}  ") = true
  /\ re_match isalnum_ascii RE_FENCED_DIV_LINE (lit "  :::: {.x}  ") = true
  /\ exists ws n gap grp ws',
      lit "  :::: {.x}  " = ws ++ repeat COLON n ++ gap ++ grp ++ ws'
      /\ 3 <= n
      /\ forallb is_space ws = true
      /\ forallb is_space gap = true
      /\ forallb is_space ws' = true
      /\ (grp = [] \/ exists body, grp = LBRACE :: body ++ [RBRACE]).
Proof.
  refine (conj eq_refl (conj eq_refl _)).
  exact (fenced_div_line_shape isalnum_ascii (lit "  :::: {.x}  ")
           eq_refl eq_refl).
Defined.

Lemma html_tag_removed_witness :
  (forall x, is_ascii_alnum x = true -> isalnum_ascii x = true)
  /\ is_word isalnum_ascii (hd GT (lit " class=x")) = false
  /\ forallb (not_chr LT) (lit "a ") = true
  /\ forallb (not_chr LT) (lit " b") = true
  /\ (@nil N = [] \/ @nil N = [SLASH])
  /\ is_ascii_alpha 115%N = true
  /\ forallb is_ascii_alnum (lit "pan") = true
  /\ forallb (not_chr GT) (lit " class=x") = true
  /\ re_sub isalnum_ascii RE_HTML_TAG [] (lit "a <span class=x> b")
     = lit "a  b".
Proof.
  assert (T : forall x, is_ascii_alnum x = true -> isalnum_ascii x = true)
    by (intros x Hx; exact Hx).
  assert (S0 : @nil N = [] \/ @nil N = [SLASH]) by (left; reflexivity).
  refine (conj T (conj eq_refl (conj eq_refl (conj eq_refl
           (conj S0 (conj eq_refl (conj eq_refl (conj eq_refl _)))))))).
  exact (html_tag_removed isalnum_ascii (lit "a ") [] 115%N (lit "pan")
           (lit " class=x") (lit " b")
           T eq_refl eq_refl eq_refl S0 eq_refl eq_refl eq_refl).
Defined.

(** ** The driver, whatever the converter does *)

Section DriverShape.

Variable isalnum : char -> bool.
Variable H : Host.
Variables docx_path out_md media_dir : Path H.

Lemma run_pandoc_message_stripped f st ok msg :
  fst (run_pandoc H docx_path out_md media_dir f st) = Done (ok, msg) ->
  strip msg = msg.
Proof.
  unfold run_pandoc.
  destruct (subprocess_run H _ (world st)) as [[[o e | o e] | e] w]; simpl;
    intros E; inversion E; apply strip_idem.
Qed.

(** After a run that was accepted: the output file is read and written
    back, which runs no command, and the loop returns success with the
    format of that run unless one of the two raises. *)
Lemma try_candidates_accepted (f m : list N) (st : state H) :
  invoked
    (snd (bind (read_output H out_md)
            (fun md_text =>
               bind (in_world
                       (write_text H out_md (clean_markdown isalnum md_text)))
                 (fun _ => ret (true, f, m))) st))
  = invoked st
  /\ (fst (bind (read_output H out_md)
             (fun md_text =>
                bind (in_world
                        (write_text H out_md
                           (clean_markdown isalnum md_text)))
                  (fun _ => ret (true, f, m))) st)
      = Done (true, f, m)
      \/ exists e,
          fst (bind (read_output H out_md)
                 (fun md_text =>
                    bind (in_world
                            (write_text H out_md
                               (clean_markdown isalnum md_text)))
                      (fun _ => ret (true, f, m))) st)
          = Failed e).
Proof.
  unfold bind. pose proof (read_output_state H out_md st) as S.
  destruct (read_output H out_md st) as [[t | e] st2]; simpl in S; subst st2.
  - pose proof (in_world_invoked H unit
                  (write_text H out_md (clean_markdown isalnum t)) st) as I.
    destruct (in_world (write_text H out_md (clean_markdown isalnum t)) st)
      as [[[] | e] st3]; simpl in *.
    + split; [exact I | left; reflexivity].
    + split; [exact I | right; exists e; reflexivity].
  - simpl. split; [reflexivity | right; exists e; reflexivity].
Qed.

(** What the loop returns when it returns, from any point of the list
    on. *)
Lemma try_candidates_result candidates :
  forall last_error st ok to_format msg,
    fst (try_candidates isalnum H candidates last_error
           docx_path out_md media_dir st) = Done (ok, to_format, msg) ->
    (ok = true /\ In to_format candidates /\ strip msg = msg)
    \/ (ok = false
        /\ to_format = []
        /\ (candidates = [] -> msg = last_error)
        /\ (candidates <> [] ->
            exists d, msg = lit "[" ++ last candidates [] ++ lit "] " ++ d
                      /\ strip d = d)).
Proof.
  induction candidates as [|f0 rest IH]; intros last st ok fmt msg E.
  - simpl in E. inversion E; subst. right. repeat split; auto. congruence.
  - simpl try_candidates in E. unfold bind at 1 in E.
    pose proof (run_pandoc_message_stripped f0 st) as S.
    destruct (run_pandoc H docx_path out_md media_dir f0 st)
      as [[[ok1 msg1] | e] st1]; [|discriminate E].
    specialize (S ok1 msg1 eq_refl). destruct ok1; cbv beta iota in E.
    + destruct (try_candidates_accepted f0 (py_or msg1 []) st1)
        as [_ [X | [e X]]]; rewrite X in E; [|discriminate E].
      inversion E; subst. left. split; [reflexivity|].
      split; [left; reflexivity|].
      destruct msg1; [reflexivity | exact S].
    + apply IH in E. destruct E as [[O [I S']] | [O [F [L D]]]].
      * left. split; [exact O|]. split; [right; exact I | exact S'].
      * right. split; [exact O|]. split; [exact F|].
        split; [discriminate|]. intros _.
        destruct rest as [|f1 rest].
        -- exists msg1. split; [apply L; reflexivity | exact S].
        -- destruct D as [d [Rd Sd]]; [discriminate|].
           exists d. split; [exact Rd | exact Sd].
Qed.

(** X10: when [convert_with_fallback] returns, it returns either success
    with one of the candidate formats (never the empty string) and a
    message without whitespace around it, or failure with the empty
    format and a message that starts with the last candidate in square
    brackets. *)
Theorem convert_with_fallback_result st ok to_format msg :
  fst (convert_with_fallback isalnum H docx_path out_md media_dir st)
  = Done (ok, to_format, msg) ->
  (ok = true
   /\ In to_format TO_CANDIDATES
   /\ to_format <> []
   /\ strip msg = msg)
  \/ (ok = false
      /\ to_format = []
      /\ exists d, msg = lit "[plain] " ++ d /\ strip d = d).
Proof.
  unfold convert_with_fallback, bind.
  destruct (in_world (mkdir H (path_parent H out_md)) st)
    as [[[] | e] st1]; [|discriminate].
  destruct (in_world (mkdir H media_dir) st1) as [[[] | e] st2];
    [|discriminate].
  intros E. apply try_candidates_result in E.
  destruct E as [[O [I S]] | [O [F [_ D]]]].
  - left. split; [exact O|]. split; [exact I|]. split; [|exact S].
    intros E. rewrite E in I. simpl in I.
    repeat (destruct I as [I | I]; [discriminate I|]). exact I.
  - right. split; [exact O|]. split; [exact F|].
    destruct D as [d [Rd Sd]]; [discriminate|].
    exists d. split; [exact Rd | exact Sd].
Qed.




End DriverShape.

Lemma convert_with_fallback_result_witness :
  fst (convert_with_fallback isalnum_ascii gfm_only_host
         (lit "a.docx") (lit "a.md") (lit "a_media")
         (fresh gfm_only_host tt))
  = Done (true, lit "gfm", [])
  /\ ((true = true
       /\ In (lit "gfm") TO_CANDIDATES
       /\ lit "gfm" <> []
       /\ strip (@nil N) = [])
      \/ (true = false
          /\ lit "gfm" = []
          /\ exists d, [] = lit "[plain] " ++ d /\ strip d = d)).
Proof.
  assert (E : fst (convert_with_fallback isalnum_ascii gfm_only_host
                     (lit "a.docx") (lit "a.md") (lit "a_media")
                     (fresh gfm_only_host tt))
              = Done (true, lit "gfm", [])) by (vm_compute; reflexivity).
  split; [exact E|].
  exact (convert_with_fallback_result isalnum_ascii gfm_only_host
           (lit "a.docx") (lit "a.md") (lit "a_media")
           (fresh gfm_only_host tt) true (lit "gfm") [] E).
Defined.

(** ** check_pandoc *)

Lemma nth_error_splitlines c s :
  exists l, nth_error (splitlines (c :: s)) 0 = Some l /\ one_line l = true.
Proof.
  pose proof (splitlines_one_line (c :: s)) as F.
  destruct (splitlines (c :: s)) as [|l ls] eqn:E.
  - apply splitlines_nil_iff in E. discriminate E.
  - inversion F; subst. exists l. auto.
Qed.

Lemma report_and_exit_ends (H : Host) (w : World H) :
  (fst (print_err H w) = Done tt /\ fst (report_and_exit H w) = SystemExit 1)
  \/ (exists e, fst (print_err H w) = Failed e
                /\ fst (report_and_exit H w) = Uncaught e).
Proof.
  unfold report_and_exit. destruct (print_err H w) as [[[] | e] w'].
  - left. split; reflexivity.
  - right. exists e. split; reflexivity.
Qed.

(** X14: check_pandoc never fails on an index: the first line of a
    non-empty output exists.  When the version query exits with status 0
    and output that decodes, it returns a version that is not empty, is
    one line and has no whitespace around it.  When pandoc is not found,
    or exits with another status, it prints its message and ends the
    program with status 1, unless the printing itself raises.  Any other
    exception of the query, such as PermissionError or
    UnicodeDecodeError, passes through it. *)
Theorem check_pandoc_version (H : Host) (w : World H) :
  let run := subprocess_run H [lit "pandoc"; lit "--version"] w in
  let r := fst (check_pandoc H w) in
  (exists out err v,
      fst run = Done (CompletedProcess out err)
      /\ r = Version v
      /\ v <> [] /\ strip v = v /\ one_line v = true)
  \/ ((fst run = Failed FileNotFoundError
       \/ exists out err, fst run = Done (CalledProcessError out err))
      /\ ((fst (print_err H (snd run)) = Done tt /\ r = SystemExit 1)
          \/ exists e, fst (print_err H (snd run)) = Failed e
                       /\ r = Uncaught e))
  \/ (exists e,
         fst run = Failed e
         /\ (e = FileNotFoundError -> False)
         /\ r = Uncaught e).
Proof.
  unfold check_pandoc. cbv zeta.
  destruct (subprocess_run H [lit "pandoc"; lit "--version"] w)
    as [[[out err | out err] | e] w'].
  - left. exists out, err.
    assert (L : exists l,
               match out with
               | [] => Some []
               | _ :: _ => nth_error (splitlines out) 0
               end = Some l /\ one_line l = true).
    { destruct out as [|c s]; [exists []; auto | apply nth_error_splitlines]. }
    destruct L as [l [-> O]].
    exists (py_or (strip l) (lit "pandoc (version unknown)")).
    split; [reflexivity|]. split; [reflexivity|].
    destruct (strip l) as [|x u] eqn:S.
    + simpl. split; [discriminate|]. split; reflexivity.
    + change (py_or (x :: u) (lit "pandoc (version unknown)"))
        with (x :: u).
      split; [discriminate|]. rewrite <- S.
      split; [apply strip_idem|]. unfold one_line in *.
      apply strip_forall, O.
  - right. left. split; [right; exists out, err; reflexivity|].
    apply report_and_exit_ends.
  - destruct e;
      try (right; right; eexists; split; [reflexivity|];
           split; [discriminate | reflexivity]).
    right. left. split; [left; reflexivity|].
    apply report_and_exit_ends.
Qed.

(** ** The documents main selects *)

Lemma in_skip_dirs part :
  existsb (text_eqb part) SKIP_DIRS = true <-> In part SKIP_DIRS.
Proof.
  rewrite existsb_exists. split.
  - intros [d [I E]]. apply text_eqb_eq in E. subst d. exact I.
  - intros I. exists part. split; [exact I | apply text_eqb_eq; reflexivity].
Qed.

Lemma docx_name_not_skipped st :
  existsb (text_eqb (st ++ lit ".docx")) SKIP_DIRS = false.
Proof.
  destruct (existsb (text_eqb (st ++ lit ".docx")) SKIP_DIRS) eqn:E;
    [|reflexivity].
  exfalso. apply in_skip_dirs in E.
  assert (L : last (st ++ lit ".docx") 0%N = 120%N).
  { change (lit ".docx") with (lit ".doc" ++ [120%N]).
    rewrite app_assoc. apply last_last. }
  simpl in E.
  repeat (destruct E as [E | E];
          [rewrite <- E in L; vm_compute in L; discriminate L|]).
  exact E.
Qed.

Lemma relative_to_under base rest :
  relative_to (base ++ rest) base = Return rest.
Proof. apply relative_to_spec. reflexivity. Qed.

Lemma is_in_skipped_dir_docx base dirs st :
  is_in_skipped_dir (base ++ dirs ++ [st ++ lit ".docx"]) base
  = Return (existsb (fun part => existsb (text_eqb part) SKIP_DIRS) dirs).
Proof.
  unfold is_in_skipped_dir. rewrite relative_to_under.
  rewrite existsb_app. cbn [existsb]. rewrite docx_name_not_skipped.
  rewrite !orb_false_r. reflexivity.
Qed.

(** X15: for a document below a base directory whose path has at least
    one part, [is_in_skipped_dir] raises nothing and says True exactly
    when one of the directories between the base and the document bears
    a name of the skip set; the parts of the base itself and the name of
    the document do not count. *)
Theorem is_in_skipped_dir_below_base base dirs st :
  base <> [] ->
  (is_in_skipped_dir (base ++ dirs ++ [st ++ lit ".docx"]) base
   = Return true
   \/ is_in_skipped_dir (base ++ dirs ++ [st ++ lit ".docx"]) base
      = Return false)
  /\ (is_in_skipped_dir (base ++ dirs ++ [st ++ lit ".docx"]) base
      = Return true
      <-> exists d, In d dirs /\ In d SKIP_DIRS).
Proof.
  intros _. rewrite is_in_skipped_dir_docx. split.
  - destruct (existsb _ dirs); auto.
  - split.
    + intros E. inversion E as [E']. apply existsb_exists in E'.
      destruct E' as [d [I S]]. exists d. split; [exact I|].
      apply in_skip_dirs, S.
    + intros [d [I S]]. f_equal. apply existsb_exists.
      exists d. split; [exact I | apply in_skip_dirs, S].
Qed.

Lemma is_in_skipped_dir_below_base_witness :
  [lit "in"] <> @nil (list N)
  /\ (is_in_skipped_dir
        ([lit "in"] ++ [lit "docs"; lit ".git"] ++ [lit "a" ++ lit ".docx"])
        [lit "in"]
      = Return true
      <-> exists d, In d [lit "docs"; lit ".git"] /\ In d SKIP_DIRS).
Proof.
  assert (B : [lit "in"] <> @nil (list N)) by discriminate.
  split; [exact B|].
  exact (proj2 (is_in_skipped_dir_below_base [lit "in"]
                  [lit "docs"; lit ".git"] (lit "a") B)).
Defined.

Lemma select_docx_returns found input_dir :
  exists docx_files,
    select_docx found input_dir = Return docx_files
    /\ forall f,
        In f docx_files
        <-> In f found
            /\ is_in_skipped_dir f input_dir = Return false
            /\ startswith (path_name f) (lit "~$") = false.
Proof.
  induction found as [|g rest IH].
  - exists []. split; [reflexivity|]. simpl. tauto.
  - destruct IH as [l [E M]]. simpl select_docx.
    assert (R : exists b, is_in_skipped_dir g input_dir = Return b).
    { unfold is_in_skipped_dir.
      destruct (relative_to g input_dir) as [parts | []]; eauto. }
    destruct R as [b Rb]. rewrite Rb, E.
    destruct b.
    + exists l. split; [reflexivity|]. intros f. rewrite M. simpl.
      split; [tauto|]. intros [[-> | I] [S T]]; [congruence | tauto].
    + destruct (startswith (path_name g) (lit "~$")) eqn:T.
      * exists l. split; [reflexivity|]. intros f. rewrite M. simpl.
        split; [tauto|]. intros [[-> | I] [S T']]; [congruence | tauto].
      * exists (g :: l). split; [reflexivity|]. intros f. simpl.
        rewrite M. split.
        -- intros [-> | [I [S T']]]; auto.
        -- intros [[-> | I] [S T']]; auto.
Qed.

(** X16: the loop that collects the documents raises nothing, and among
    the documents below the input directory it keeps exactly those that
    were found, lie in no directory of the skip set and bear no name that
    starts with the lock-file mark. *)
Theorem select_docx_kept found input_dir :
  exists docx_files,
    select_docx found input_dir = Return docx_files
    /\ forall dirs st,
        In (input_dir ++ dirs ++ [st ++ lit ".docx"]) docx_files
        <-> In (input_dir ++ dirs ++ [st ++ lit ".docx"]) found
            /\ (forall d, In d dirs -> ~ In d SKIP_DIRS)
            /\ startswith (st ++ lit ".docx") (lit "~$") = false.
Proof.
  destruct (select_docx_returns found input_dir) as [l [E M]].
  exists l. split; [exact E|]. intros dirs st.
  rewrite M, is_in_skipped_dir_docx.
  assert (N : path_name (input_dir ++ dirs ++ [st ++ lit ".docx"])
              = st ++ lit ".docx").
  { unfold path_name. rewrite app_assoc. apply last_last. }
  rewrite N.
  assert (S : Return (existsb (fun part => existsb (text_eqb part) SKIP_DIRS)
                        dirs) = Return false
              <-> forall d, In d dirs -> ~ In d SKIP_DIRS).
  { split.
    - intros R d I K. inversion R as [R'].
      assert (X : existsb (fun part => existsb (text_eqb part) SKIP_DIRS)
                    dirs = true).
      { apply existsb_exists. exists d. split; [exact I|].
        apply in_skip_dirs, K. }
      congruence.
    - intros A. f_equal.
      destruct (existsb (fun part => existsb (text_eqb part) SKIP_DIRS)
                  dirs) eqn:X; [|reflexivity].
      exfalso. apply existsb_exists in X. destruct X as [d [I K]].
      apply in_skip_dirs in K. exact (A d I K). }
  rewrite S. tauto.
Qed.

(** ** The output places *)

Lemma rfind_none a s : forallb (not_chr a) s = true -> rfind a s = None.
Proof.
  induction s as [|c s IH]; [reflexivity|]. simpl.
  rewrite andb_true_iff. intros [C F]. rewrite (IH F).
  unfold not_chr in C. apply negb_true_iff in C. rewrite C. reflexivity.
Qed.

Lemma rfind_last a s t :
  forallb (not_chr a) t = true -> rfind a (s ++ a :: t) = Some (length s).
Proof.
  intros F. induction s as [|c s IH]; simpl.
  - rewrite (rfind_none a t F), N.eqb_refl. reflexivity.
  - rewrite IH. reflexivity.
Qed.

Lemma suffix_stem st ext :
  st <> [] -> ext <> [] -> forallb (not_chr DOT) ext = true ->
  suffix (st ++ DOT :: ext) = DOT :: ext /\ stem (st ++ DOT :: ext) = st.
Proof.
  intros S E F. unfold suffix, stem. rewrite (rfind_last DOT st ext F).
  assert (C : (0 <? length st) && (length st <? length (st ++ DOT :: ext) - 1)
              = true).
  { apply andb_true_iff. rewrite !Nat.ltb_lt, length_app. simpl.
    destruct st; [congruence|]. destruct ext; [congruence|]. simpl. lia. }
  rewrite C. split.
  - rewrite skipn_app, skipn_all, Nat.sub_diag. reflexivity.
  - rewrite firstn_app, firstn_all, Nat.sub_diag. simpl. apply app_nil_r.
Qed.

Lemma with_suffix_replaces pre st ext sfx :
  st <> [] -> ext <> [] -> forallb (not_chr DOT) ext = true ->
  with_suffix (pre ++ [st ++ DOT :: ext]) sfx = Return (pre ++ [st ++ sfx]).
Proof.
  intros Hs He F. unfold with_suffix, path_name, parent.
  rewrite last_last, removelast_last.
  destruct (suffix_stem st ext Hs He F) as [Sx _].
  destruct (st ++ DOT :: ext) as [|c n] eqn:Hn; [destruct st; discriminate|].
  cbv zeta. rewrite Sx. rewrite <- Hn.
  f_equal. f_equal. f_equal.
  rewrite length_app. simpl length.
  replace (length st + S (length ext) - S (length ext)) with (length st)
    by lia.
  rewrite firstn_app, firstn_all, Nat.sub_diag. simpl.
  rewrite app_nil_r. reflexivity.
Qed.

Lemma output_paths_docx input_dir output_dir dirs st :
  st <> [] ->
  output_paths (input_dir ++ dirs ++ [st ++ lit ".docx"]) input_dir output_dir
  = Return (dirs ++ [st ++ lit ".docx"],
            output_dir ++ dirs ++ [st ++ lit ".md"],
            output_dir ++ dirs ++ [st ++ lit "_media"]).
Proof.
  intros Hs. unfold output_paths. rewrite relative_to_under.
  rewrite (app_assoc output_dir dirs).
  assert (W : with_suffix ((output_dir ++ dirs) ++ [st ++ lit ".docx"])
                 (lit ".md")
               = Return ((output_dir ++ dirs) ++ [st ++ lit ".md"])).
  { apply (with_suffix_replaces (output_dir ++ dirs) st (lit "docx")
             (lit ".md") Hs); [discriminate | reflexivity]. }
  rewrite W.
  unfold parent, path_name. rewrite removelast_last, last_last.
  destruct (suffix_stem st (lit "md") Hs) as [_ E];
    [discriminate | reflexivity |].
  change (st ++ lit ".md") with (st ++ DOT :: lit "md"). rewrite E.
  rewrite <- !app_assoc. reflexivity.
Qed.

(** X17: for a document [stem.docx] below the input directory, main
    writes to [stem.md] at the same place below the output directory and
    hands the converter the directory [stem_media] beside it. *)
Theorem output_paths_of_document input_dir output_dir dirs st :
  st <> [] ->
  output_paths (input_dir ++ dirs ++ [st ++ lit ".docx"]) input_dir output_dir
  = Return (dirs ++ [st ++ lit ".docx"],
            output_dir ++ dirs ++ [st ++ lit ".md"],
            output_dir ++ dirs ++ [st ++ lit "_media"])
  /\ parent (output_dir ++ dirs ++ [st ++ lit "_media"])
     = parent (output_dir ++ dirs ++ [st ++ lit ".md"]).
Proof.
  intros S. split; [apply output_paths_docx, S|].
  unfold parent. rewrite !app_assoc, !removelast_last. reflexivity.
Qed.

(** X18: two documents below the input directory never share an output
    file or a media directory, and no output file is a media directory. *)
Theorem output_paths_distinct input_dir output_dir dirs1 st1 dirs2 st2
  rel1 out1 media1 rel2 out2 media2 :
  st1 <> [] -> st2 <> [] ->
  output_paths (input_dir ++ dirs1 ++ [st1 ++ lit ".docx"])
    input_dir output_dir = Return (rel1, out1, media1) ->
  output_paths (input_dir ++ dirs2 ++ [st2 ++ lit ".docx"])
    input_dir output_dir = Return (rel2, out2, media2) ->
  (out1 = out2 -> dirs1 = dirs2 /\ st1 = st2)
  /\ (media1 = media2 -> dirs1 = dirs2 /\ st1 = st2)
  /\ out1 <> media2.
Proof.
  intros S1 S2 E1 E2.
  rewrite output_paths_docx in E1, E2 by assumption.
  inversion E1; subst. inversion E2; subst. clear E1 E2.
  split; [|split].
  - intros E. apply app_inv_head in E. apply app_inj_tail in E.
    destruct E as [-> E]. apply app_inv_tail in E. auto.
  - intros E. apply app_inv_head in E. apply app_inj_tail in E.
    destruct E as [-> E]. apply app_inv_tail in E. auto.
  - intros E. apply app_inv_head in E. apply app_inj_tail in E.
    destruct E as [_ E].
    apply (f_equal (fun l => last l 0%N)) in E.
    change (lit ".md") with (lit ".m" ++ [100%N]) in E.
    change (lit "_media") with (lit "_medi" ++ [97%N]) in E.
    rewrite !app_assoc, !last_last in E. discriminate E.
Qed.

Lemma output_paths_of_document_witness :
  lit "report" <> []
  /\ output_paths [lit "in"; lit "sub"; lit "report.docx"] [lit "in"]
       [lit "in"; lit "md_out"]
     = Return ([lit "sub"; lit "report.docx"],
               [lit "in"; lit "md_out"; lit "sub"; lit "report.md"],
               [lit "in"; lit "md_out"; lit "sub"; lit "report_media"]).
Proof.
  assert (Hs : lit "report" <> []) by discriminate.
  split; [exact Hs|].
  exact (proj1 (output_paths_of_document [lit "in"] [lit "in"; lit "md_out"]
                  [lit "sub"] (lit "report") Hs)).
Defined.

Lemma output_paths_distinct_witness :
  lit "a" <> [] /\ lit "a.b" <> []
  /\ [lit "out"; lit "a.md"] <> [lit "out"; lit "a.b_media"]
  /\ ([lit "out"; lit "a.md"] = [lit "out"; lit "a.b.md"] ->
      @nil (list N) = [] /\ lit "a" = lit "a.b").
Proof.
  assert (H1 : lit "a" <> []) by discriminate.
  assert (H2 : lit "a.b" <> []) by discriminate.
  pose proof (output_paths_distinct [lit "in"] [lit "out"]
                [] (lit "a") [] (lit "a.b")
                [lit "a.docx"] [lit "out"; lit "a.md"]
                [lit "out"; lit "a_media"]
                [lit "a.b.docx"] [lit "out"; lit "a.b.md"]
                [lit "out"; lit "a.b_media"]
                H1 H2 eq_refl eq_refl) as [D1 [_ D3]].
  exact (conj H1 (conj H2 (conj D3 D1))).
Defined.

(** ** The loop over the documents *)

Section BatchCounts.

Variable isalnum : char -> bool.
Variable H : Host.
Variable of_parts : list text -> Path H.





End BatchCounts.

